(** * Batched TTS proxy: chunker, credential cache and batch scheduler

    A shallow embedding of
    - [utils/text-processing.js]  ([smartChunkText]),
    - [lib/auth.js]               ([getEndpoint], [clearTokenCache],
                                   [validateApiKey]),
    - [lib/tts.js]                ([getAudioChunk], [getVoice],
                                   [pipeChunksToStream], [streamVoice],
                                   [parseRequestParams], [processRequestParams]),
    - [lib/utils.js]              ([cleanText]),
    - the speech endpoint         ([handleSpeechRequest], [onRequest]),
    - [api/v1/models.js]          ([onRequest]),
    together with the properties the specification states about them
    and further properties of the code. *)

From Stdlib Require Import ZArith NArith List String Ascii Bool Lia.
From Stdlib Require Import DecimalString.
From stdpp Require Import base list.
Import ListNotations.

Local Open Scope Z_scope.

(* ================================================================== *)
(** * JavaScript strings *)
(* ================================================================== *)

(** A JavaScript string is a sequence of UTF-16 code units; [.length]
    counts code units and the regular expression of the chunker (no [u]
    flag) matches code unit by code unit. *)
Module Js.

Definition code_unit := N.
Definition jsstring := list code_unit.

(** Literal with ASCII characters only, for concrete inputs. *)
Definition lit (s : string) : jsstring := map N_of_ascii (list_ascii_of_string s).

(** ECMAScript [WhiteSpace] and [LineTerminator] code points, the set
    stripped by [String.prototype.trim]. *)
Definition is_whitespace (c : code_unit) : bool :=
  existsb (N.eqb c)
    [0x0009; 0x000A; 0x000B; 0x000C; 0x000D; 0x0020; 0x00A0; 0x1680;
     0x2000; 0x2001; 0x2002; 0x2003; 0x2004; 0x2005; 0x2006; 0x2007;
     0x2008; 0x2009; 0x200A; 0x2028; 0x2029; 0x202F; 0x205F; 0x3000;
     0xFEFF]%N.

Fixpoint trimStart (s : jsstring) : jsstring :=
  match s with
  | c :: rest => if is_whitespace c then trimStart rest else s
  | [] => []
  end.

Definition trimEnd (s : jsstring) : jsstring := rev (trimStart (rev s)).

Definition trim (s : jsstring) : jsstring := trimEnd (trimStart s).

(** [s.substring(a, b)]: both indices are clamped to [0, length] and
    swapped when out of order. *)
Definition clamp (len i : Z) : Z := Z.max 0 (Z.min i len).

Definition substring (s : jsstring) (a b : Z) : jsstring :=
  let len := Z.of_nat (length s) in
  let a' := clamp len a in
  let b' := clamp len b in
  let lo := Z.min a' b' in
  let hi := Z.max a' b' in
  firstn (Z.to_nat (hi - lo)) (skipn (Z.to_nat lo) s).

(** [arr.slice(a, b)] on an array: a negative index counts from the
    end, and both are then clamped to [0, length]. *)
Definition relative (len i : Z) : Z :=
  if i <? 0 then Z.max (len + i) 0 else Z.min i len.

Definition slice {A} (arr : list A) (a b : Z) : list A :=
  let len := Z.of_nat (length arr) in
  let k := relative len a in
  let final := relative len b in
  firstn (Z.to_nat (final - k)) (skipn (Z.to_nat k) arr).

End Js.

(* ================================================================== *)
(** * utils/text-processing.js *)
(* ================================================================== *)

Module TextProcessing.
Import Js.

(** The character class of [/([.?!,;:\n。？！，；：\r]+)/g]. *)
Definition is_delimiter (c : code_unit) : bool :=
  existsb (N.eqb c)
    [0x2E; 0x3F; 0x21; 0x2C; 0x3B; 0x3A; 0x0A;
     0x3002; 0xFF1F; 0xFF01; 0xFF0C; 0xFF1B; 0xFF1A; 0x0D]%N.

(** [text.split(/([...]+)/g)]: the pieces between the maximal delimiter
    runs, with the runs themselves (the capture group) kept in between.
    [cur] is the piece being read and [in_delim] tells whether it is a
    delimiter run.  The result alternates text, run, text, ..., text: it
    starts and ends with a (possibly empty) text piece. *)
Fixpoint split_go (text cur : jsstring) (in_delim : bool) : list jsstring :=
  match text with
  | [] => if in_delim then [cur; []] else [cur]
  | c :: rest =>
      if Bool.eqb (is_delimiter c) in_delim
      then split_go rest (cur ++ [c]) in_delim
      else cur :: split_go rest [c] (is_delimiter c)
  end.

Definition split (text : jsstring) : list jsstring := split_go text [] false.

(** The variables of the accumulation loop. *)
Record acc := Acc {
  chunks : list jsstring;
  parts : list jsstring;
  currentLength : Z
}.

(** [chunks.push(parts.join('').trim())], guarded by [parts.length > 0]. *)
Definition flush (chunks parts : list jsstring) : list jsstring :=
  if (0 <? length parts)%nat then chunks ++ [trim (concat parts)] else chunks.

(** One iteration of [for (const part of sentences)]. *)
Definition loop_body (maxChunkLength : Z) (a : acc) (part : jsstring) : acc :=
  let partLength := Z.of_nat (length part) in
  if currentLength a + partLength <=? maxChunkLength then
    Acc (chunks a) (parts a ++ [part]) (currentLength a + partLength)
  else
    Acc (flush (chunks a) (parts a)) [part] partLength.

(** The boundary-aware pass: the loop and the flush that follows it. *)
Definition boundary_pass (text : jsstring) (maxChunkLength : Z) : list jsstring :=
  let a := fold_left (loop_body maxChunkLength) (split text) (Acc [] [] 0) in
  flush (chunks a) (parts a).

(** [for (let i = 0; i < text.length; i += maxChunkLength)
       chunks.push(text.substring(i, i + maxChunkLength))].
    With [maxChunkLength <= 0] the JavaScript loop never ends: no amount
    of fuel gives a result. *)
Fixpoint fixed_width (fuel : nat) (text : jsstring) (maxChunkLength i : Z)
    (chunks : list jsstring) : option (list jsstring) :=
  if i <? Z.of_nat (length text) then
    match fuel with
    | O => None
    | S fuel' =>
        fixed_width fuel' text maxChunkLength (i + maxChunkLength)
          (chunks ++ [substring text i (i + maxChunkLength)])
    end
  else Some chunks.

Definition nonempty (chunk : jsstring) : bool := (0 <? length chunk)%nat.

(** [smartChunkText(text, maxChunkLength)]; [None] stands for a call that
    does not return. *)
Definition smartChunkText (text : jsstring) (maxChunkLength : Z)
    : option (list jsstring) :=
  match text with
  | [] => Some []
  | _ =>
      let chunks := boundary_pass text maxChunkLength in
      let forced :=
        if (length chunks =? 0)%nat && (0 <? length text)%nat
        then fixed_width (length text) text maxChunkLength 0 chunks
        else Some chunks in
      match forced with
      | Some chunks' => Some (List.filter nonempty chunks')
      | None => None
      end
  end.

(** ** What the specification asks of the units *)

Definition blank (w : jsstring) : Prop := Forall (fun c => is_whitespace c = true) w.

(** [reconstructs units text]: [text] is the units in order, with only
    whitespace before, between and after them. *)
Inductive reconstructs : list jsstring -> jsstring -> Prop :=
| rebuilt_end (w : jsstring) :
    blank w -> reconstructs [] w
| rebuilt_unit (w u : jsstring) (us : list jsstring) (rest : jsstring) :
    blank w -> reconstructs us rest -> reconstructs (u :: us) (w ++ u ++ rest).

Definition visible (c : code_unit) : bool := negb (is_whitespace c).

End TextProcessing.

(* ================================================================== *)
(** * Promises *)
(* ================================================================== *)

Module Async.

(** A settled promise.  A rejection carries the [message] of the thrown
    [Error], which is all the callers read. *)
Inductive settled (A : Type) : Type :=
| Fulfilled (value : A)
| Rejected (message : string).
Arguments Fulfilled {A} value.
Arguments Rejected {A} message.

(** A promise of a batch: how it settles and the instant at which it
    does.  The instants are chosen by the environment (network
    latencies); of two promises with the same instant the one submitted
    first is taken to settle first. *)
Record timed (A : Type) : Type := Timed { result : settled A; instant : nat }.
Arguments Timed {A} result instant.
Arguments result {A} t.
Arguments instant {A} t.

(** The rejection that happens first among [ps], with its instant. *)
Fixpoint first_rejection {A} (ps : list (timed A)) : option (nat * string) :=
  match ps with
  | [] => None
  | p :: rest =>
      match result p, first_rejection rest with
      | Rejected m, Some (t', m') =>
          if (instant p <=? t')%nat then Some (instant p, m) else Some (t', m')
      | Rejected m, None => Some (instant p, m)
      | Fulfilled _, later => later
      end
  end.

Fixpoint values {A} (ps : list (timed A)) : list A :=
  match ps with
  | [] => []
  | p :: rest =>
      match result p with
      | Fulfilled v => v :: values rest
      | Rejected _ => values rest
      end
  end.

Definition rejects {A} (p : timed A) : Prop := exists m, result p = Rejected m.

(** [await Promise.all(ps)]: rejects with the reason of the first of
    [ps] to reject; otherwise fulfils with the values in the order of
    [ps]. *)
Definition promise_all {A} (ps : list (timed A)) : settled (list A) :=
  match first_rejection ps with
  | Some (_, m) => Rejected m
  | None => Fulfilled (values ps)
  end.

End Async.

(* ================================================================== *)
(** * lib/auth.js: the token cache *)
(* ================================================================== *)

Module Auth.
Import Async.

(** The JSON record the token-issuance endpoint answers with: region [r]
    and token [t]. *)
Record Endpoint := { r : string; t : string }.

(** [tokenInfo]; [None] is JavaScript's [null] (or [undefined]). *)
Record TokenInfo := {
  endpoint : option Endpoint;
  token : option string;
  expiredAt : option Z
}.

(** Where the refresh closure is suspended: at [await sign(endpointUrl)]
    or, once the request has been sent, at [await fetch(...)] and the
    reads of its response.  Between the two and up to its last
    synchronous segment the closure touches no module variable. *)
Inductive stage := Signing | Fetching.

Inductive promise :=
| Pending (st : stage)
| Settled (res : settled Endpoint).

(** The three module variables, the refresh promises created so far (a
    promise is named by its position) and the number of requests sent to
    the token-issuance endpoint. *)
Record State := {
  tokenInfo : TokenInfo;
  tokenRefreshing : bool;
  tokenRefreshPromise : option nat;
  promises : list promise;
  requests : nat
}.

Definition empty_tokenInfo : TokenInfo :=
  {| endpoint := None; token := None; expiredAt := None |}.

Definition initial : State :=
  {| tokenInfo := empty_tokenInfo; tokenRefreshing := false;
     tokenRefreshPromise := None; promises := []; requests := 0 |}.

Definition TOKEN_REFRESH_BEFORE_EXPIRY : Z := 5 * 60.

(** Truthiness of a string or [null], and of a number or [null]. *)
Definition truthy_string (s : option string) : bool :=
  match s with
  | Some s => negb (String.eqb s "")
  | None => false
  end.

Definition truthy_number (n : option Z) : bool :=
  match n with
  | Some n => negb (n =? 0)
  | None => false
  end.

(** [tokenInfo.token && tokenInfo.expiredAt &&
     now < tokenInfo.expiredAt - TOKEN_REFRESH_BEFORE_EXPIRY]
    with [now = Date.now() / 1000].  [Date_now] is the integer number of
    milliseconds; [Date_now / 1000 < e - 300] over the rationals is
    [Date_now < 1000 * (e - 300)]. *)
Definition token_valid (Date_now : Z) (ti : TokenInfo) : bool :=
  truthy_string (token ti) && truthy_number (expiredAt ti) &&
  match expiredAt ti with
  | Some e => Date_now <? 1000 * (e - TOKEN_REFRESH_BEFORE_EXPIRY)
  | None => false
  end.

(** What the caller of the async function [getEndpoint] gets: a promise
    already resolved with a value, or one that follows refresh promise
    [p]. *)
Inductive returned :=
| Value (e : option Endpoint)
| Follows (p : nat).

(** [tokenRefreshing = true; tokenRefreshPromise = (async () => ...)()]:
    the closure runs up to [await sign(endpointUrl)] and its promise, a
    new one, is stored. *)
Definition begun (s : State) : State :=
  {| tokenInfo := tokenInfo s;
     tokenRefreshing := true;
     tokenRefreshPromise := Some (length (promises s));
     promises := promises s ++ [Pending Signing];
     requests := requests s |}.

(** The synchronous run of [getEndpoint()] up to its return. *)
Definition getEndpoint (Date_now : Z) (s : State) : State * returned :=
  if token_valid Date_now (tokenInfo s) then
    (s, Value (endpoint (tokenInfo s)))
  else
    match tokenRefreshing s, tokenRefreshPromise s with
    | true, Some p => (s, Follows p)
    | _, _ => (begun s, Follows (length (promises s)))
    end.

(** [finally { tokenRefreshing = false; tokenRefreshPromise = null; }]
    and the settlement of the closure's promise. *)
Definition finish (p : nat) (res : settled Endpoint) (ti : TokenInfo) (s : State) : State :=
  {| tokenInfo := ti;
     tokenRefreshing := false;
     tokenRefreshPromise := None;
     promises := <[p := Settled res]> (promises s);
     requests := requests s |}.

(** [catch (error) { throw new Error(`端点获取失败: ${error.message}`) }] *)
Definition refresh_failed (message : string) : settled Endpoint :=
  Rejected ("端点获取失败: " ++ message)%string.

(** What happens after the request has been sent. *)
Inductive reply :=
| Threw (message : string)
    (** [fetch], [response.text()] or [response.json()] rejected, or
        reading [decodedJwt.exp] threw *)
| NotOk (status : nat) (statusText errorText : string)
    (** [!response.ok] *)
| BadJwt (message : string)
    (** splitting, [atob] or [JSON.parse] threw *)
| Granted (data : Endpoint) (exp : option Z).
    (** [data = await response.json()], [exp = decodedJwt.exp] *)

Definition decimal (n : nat) : string := NilZero.string_of_uint (Nat.to_uint n).

(** The closure resumes after [await sign(endpointUrl)]. *)
Definition resume_sign (p : nat) (signature : settled string) (s : State) : State :=
  match signature with
  | Fulfilled _ =>
      {| tokenInfo := tokenInfo s;
         tokenRefreshing := tokenRefreshing s;
         tokenRefreshPromise := tokenRefreshPromise s;
         promises := <[p := Pending Fetching]> (promises s);
         requests := S (requests s) |}
  | Rejected m => finish p (refresh_failed m) (tokenInfo s) s
  end.

(** How the closure's promise settles, given the answer. *)
Definition settlement (rp : reply) : settled Endpoint :=
  match rp with
  | Threw m => refresh_failed m
  | NotOk status statusText errorText =>
      refresh_failed
        ("获取端点失败: " ++ decimal status ++ " " ++ statusText ++ " - " ++ errorText)%string
  | BadJwt m => refresh_failed ("JWT 解析失败: " ++ m)%string
  | Granted data _ => Fulfilled data
  end.

(** [tokenInfo = { endpoint: data, token: data.t, expiredAt: decodedJwt.exp }],
    reached on the success path only. *)
Definition installed (rp : reply) (ti : TokenInfo) : TokenInfo :=
  match rp with
  | Granted data exp => {| endpoint := Some data; token := Some (t data); expiredAt := exp |}
  | _ => ti
  end.

(** The closure's last segment, from the answer to its return. *)
Definition resume_fetch (p : nat) (rp : reply) (s : State) : State :=
  finish p (settlement rp) (installed rp (tokenInfo s)) s.

(** [clearTokenCache()] *)
Definition clearTokenCache (s : State) : State :=
  {| tokenInfo := empty_tokenInfo;
     tokenRefreshing := false;
     tokenRefreshPromise := None;
     promises := promises s;
     requests := requests s |}.

(** The turns of the event loop that touch the cache. *)
Inductive event :=
| Call (Date_now : Z)
| SignSettled (p : nat) (signature : settled string)
| FetchSettled (p : nat) (rp : reply)
| Clear.

(** One turn; [None] when the turn cannot happen in [s] (the closure is
    not waiting there).  A call also yields what it returned. *)
Definition step (s : State) (e : event) : option (State * list returned) :=
  match e with
  | Call now => let '(s', ret) := getEndpoint now s in Some (s', [ret])
  | SignSettled p sg =>
      match promises s !! p with
      | Some (Pending Signing) => Some (resume_sign p sg s, [])
      | _ => None
      end
  | FetchSettled p rp =>
      match promises s !! p with
      | Some (Pending Fetching) => Some (resume_fetch p rp s, [])
      | _ => None
      end
  | Clear => Some (clearTokenCache s, [])
  end.

(** A schedule of turns, with what the calls returned, in order. *)
Fixpoint run (s : State) (es : list event) : option (State * list returned) :=
  match es with
  | [] => Some (s, [])
  | e :: es' =>
      match step s e with
      | Some (s', out) =>
          match run s' es' with
          | Some (s'', outs) => Some (s'', out ++ outs)
          | None => None
          end
      | None => None
      end
  end.

(** The refreshes in flight. *)
Definition pending (pr : promise) : bool :=
  match pr with Pending _ => true | Settled _ => false end.

Definition in_flight (s : State) : nat := length (List.filter pending (promises s)).

(** What awaiting a returned promise gives once it has settled. *)
Definition awaited (s : State) (ret : returned) : option (settled (option Endpoint)) :=
  match ret with
  | Value e => Some (Fulfilled e)
  | Follows p =>
      match promises s !! p with
      | Some (Settled (Fulfilled e)) => Some (Fulfilled (Some e))
      | Some (Settled (Rejected m)) => Some (Rejected m)
      | _ => None
      end
  end.

(** The states of the specification's state machine, at a given time. *)
Inductive cache_state := NoCredential | Valid | Refreshing.

Definition state_at (Date_now : Z) (s : State) : cache_state :=
  if token_valid Date_now (tokenInfo s) then Valid
  else if tokenRefreshing s && bool_decide (is_Some (tokenRefreshPromise s)) then Refreshing
  else NoCredential.

(** ** Schedules of concurrent callers *)

Definition is_signed (e : event) : bool :=
  match e with SignSettled _ (Fulfilled _) => true | _ => false end.

Definition is_clear (e : event) : bool :=
  match e with Clear => true | _ => false end.

(** A turn that leaves a refresh in flight: a call made while the cached
    token [ti] does not pass the validity check, or the signature
    arriving (the request is then sent). *)
Definition joins (ti : TokenInfo) (e : event) : bool :=
  match e with
  | Call now => negb (token_valid now ti)
  | SignSettled _ (Fulfilled _) => true
  | _ => false
  end.

(** The settlement a turn gives the refresh when the turn ends it. *)
Definition ends_with (e : event) : option (settled Endpoint) :=
  match e with
  | SignSettled _ (Rejected m) => Some (refresh_failed m)
  | FetchSettled _ rp => Some (settlement rp)
  | _ => None
  end.

(** The times of the calls of a schedule. *)
Definition call_times (es : list event) : list Z :=
  flat_map (fun e => match e with Call now => [now] | _ => [] end) es.

(** States the cache can be in when [clearTokenCache] is not used. *)
Definition reachable (s : State) : Prop :=
  exists es outs,
    forallb (fun e => negb (is_clear e)) es = true /\ run initial es = Some (s, outs).

(** The state once the refresh [p] has sent its request. *)
Definition sent (p : nat) (s : State) : State := resume_sign p (Fulfilled ""%string) s.

(** The flags and the promises agree: either a refresh is announced by
    both flags and its promise is the only pending one, or none is
    announced and no promise is pending. *)
Definition consistent (s : State) : Prop :=
  match tokenRefreshing s, tokenRefreshPromise s with
  | true, Some p =>
      (exists st, promises s !! p = Some (Pending st)) /\
      (forall q st, promises s !! q = Some (Pending st) -> q = p)
  | false, None => forall q st, promises s !! q <> Some (Pending st)
  | _, _ => False
  end.

(** What a caller sees of a settlement of the refresh. *)
Definition seen (res : settled Endpoint) : settled (option Endpoint) :=
  match res with
  | Fulfilled e => Fulfilled (Some e)
  | Rejected m => Rejected m
  end.

End Auth.

(* ================================================================== *)
(** * lib/tts.js: the batch scheduler and the two response modes *)
(* ================================================================== *)

Module Tts.
Import Js Async.

(** Audio bytes. *)
Definition Blob := list N.

(** [voiceName, rate, pitch, style, outputFormat], passed through to
    every call. *)
Record ttsArgs := {
  voiceName : string; rate : string; pitch : string; style : string;
  outputFormat : string
}.

(** The answer of the synthesis backend to one request. *)
Inductive fetched :=
| FetchRejected (message : string)
| Answer (ok : bool) (status : nat) (statusText errorText : string) (blob : Blob).

(** The environment of a request: for the unit at position [k] of the
    chunk list, what [await getEndpoint()] gives (see [Auth]), what the
    backend answers, and the instant at which the unit's promise
    settles. *)
Record Env := {
  endpointOf : nat -> settled Auth.Endpoint;
  fetchOf : nat -> Auth.Endpoint -> ttsArgs -> jsstring -> fetched;
  settlesAt : nat -> nat
}.

Inductive body :=
| Audio (bytes : Blob)
| Readable (bytes : list Blob)
| ErrorJson (message type : string) (code : option string).

(** A [Response]; the CORS headers are left out. *)
Record Response := { status : nat; contentType : string; payload : body }.

(** [errorResponse(message, status, code)] with the default [type]. *)
Definition errorResponse (message : string) (status : nat) (code : string) : Response :=
  {| status := status; contentType := "application/json";
     payload := ErrorJson message "api_error" (Some code) |}.

(** The calls on the stream's writer, in program order. *)
Inductive writer_op :=
| Write (bytes : Blob)
| Abort (reason : string)
| Close.

Definition written (ops : list writer_op) : list Blob :=
  flat_map (fun op => match op with Write b => [b] | _ => [] end) ops.

(** [Math.ceil(a / b)] for [b > 0]. *)
Definition ceil_div (a b : Z) : Z := - (- a / b).

(** [Math.min(concurrency, length, Math.max(5, Math.ceil(length / 3)))] *)
Definition optimalConcurrency (concurrency : Z) (length : nat) : Z :=
  Z.min concurrency
    (Z.min (Z.of_nat length) (Z.max 5 (ceil_div (Z.of_nat length) 3))).

Section Request.
Variable env : Env.
Variable args : ttsArgs.

(** [getAudioChunk(text, ...)] for the unit at position [k]. *)
Definition getAudioChunk (k : nat) (text : jsstring) : timed Blob :=
  Timed
    match endpointOf env k with
    | Rejected m => Rejected m
    | Fulfilled endpoint =>
        match fetchOf env k endpoint args text with
        | FetchRejected m => Rejected m
        | Answer ok status statusText errorText blob =>
            if ok then Fulfilled blob
            else Rejected
                   ("Edge TTS API 错误: " ++ Auth.decimal status ++ " " ++ statusText
                      ++ " - " ++ errorText)%string
        end
    end
    (settlesAt env k).

(** [batch.map(chunk => getAudioChunk(chunk, ...))] for
    [batch = chunks.slice(i, i + optimalConcurrency)], with the positions
    of the batch's units in [chunks]. *)
Definition first_index (chunks : list jsstring) (i : Z) : nat :=
  Z.to_nat (relative (Z.of_nat (length chunks)) i).

Definition batch_indices (chunks : list jsstring) (i oc : Z) : list nat :=
  seq (first_index chunks i) (length (slice chunks i (i + oc))).

Definition audioPromises (chunks : list jsstring) (i oc : Z) : list (timed Blob) :=
  imap (fun j chunk => getAudioChunk (first_index chunks i + j) chunk)
       (slice chunks i (i + oc)).

(** The [for] loop of [getVoice].  [started] records the batches whose
    calls have been started; [None] stands for a loop that never ends
    ([optimalConcurrency <= 0] on a non-empty list). *)
Fixpoint getVoice_loop (fuel : nat) (textChunks : list jsstring) (oc i : Z)
    (allAudioBlobs : list Blob) (started : list (list nat))
    : option (settled (list Blob) * list (list nat)) :=
  if i <? Z.of_nat (length textChunks) then
    match fuel with
    | O => None
    | S fuel' =>
        let started' := started ++ [batch_indices textChunks i oc] in
        match promise_all (audioPromises textChunks i oc) with
        | Rejected m => Some (Rejected m, started')
        | Fulfilled audioBlobs =>
            getVoice_loop fuel' textChunks oc (i + oc)
              (allAudioBlobs ++ audioBlobs) started'
        end
    end
  else Some (Fulfilled allAudioBlobs, started).

(** [getVoice(textChunks, concurrency, ...)]: the response and the
    batches of calls it started. *)
Definition getVoice (textChunks : list jsstring) (concurrency : Z)
    : option (Response * list (list nat)) :=
  let oc := optimalConcurrency concurrency (length textChunks) in
  match getVoice_loop (length textChunks) textChunks oc 0 [] [] with
  | None => None
  | Some (Fulfilled allAudioBlobs, started) =>
      Some ({| status := 200; contentType := "audio/mpeg";
               payload := Audio (concat allAudioBlobs) |}, started)
  | Some (Rejected m, started) =>
      Some (errorResponse ("非流式 TTS 失败: " ++ m)%string 500 "tts_generation_error",
            started)
  end.

(** What a run of [pipeChunksToStream] leaves behind. *)
Record piped := {
  outcome : settled unit;
  writer : list writer_op;
  batches : list (list nat)
}.

(** The [for] loop of [pipeChunksToStream]; [blob.arrayBuffer()] reads
    bytes already in memory and gives them back unchanged. *)
Fixpoint pipe_loop (fuel : nat) (chunks : list jsstring) (oc i : Z)
    (ops : list writer_op) (started : list (list nat))
    : option (settled unit * list writer_op * list (list nat)) :=
  if i <? Z.of_nat (length chunks) then
    match fuel with
    | O => None
    | S fuel' =>
        let started' := started ++ [batch_indices chunks i oc] in
        match promise_all (audioPromises chunks i oc) with
        | Rejected m => Some (Rejected m, ops, started')
        | Fulfilled audioBlobs =>
            let buffers := audioBlobs in
            pipe_loop fuel' chunks oc (i + oc) (ops ++ map Write buffers) started'
        end
    end
  else Some (Fulfilled tt, ops, started).

(** [pipeChunksToStream(writer, chunks, concurrency, ...)]:
    [try { loop } catch (error) { writer.abort(error); throw ... }
     finally { writer.close(); }] *)
Definition pipeChunksToStream (chunks : list jsstring) (concurrency : Z)
    : option piped :=
  let oc := optimalConcurrency concurrency (length chunks) in
  match pipe_loop (length chunks) chunks oc 0 [] [] with
  | None => None
  | Some (Fulfilled _, ops, started) =>
      Some {| outcome := Fulfilled tt; writer := ops ++ [Close]; batches := started |}
  | Some (Rejected m, ops, started) =>
      Some {| outcome := Rejected ("流式处理失败: " ++ m)%string;
              writer := (ops ++ [Abort m]) ++ [Close];
              batches := started |}
  end.

(** [streamVoice(textChunks, concurrency, ...)] *)
Definition streamVoice (textChunks : list jsstring) (concurrency : Z)
    : option Response :=
  match pipeChunksToStream textChunks concurrency with
  | None => None
  | Some p =>
      match outcome p with
      | Fulfilled _ =>
          Some {| status := 200; contentType := "audio/mpeg";
                  payload := Readable (written (writer p)) |}
      | Rejected m =>
          Some (errorResponse ("流式 TTS 失败: " ++ m)%string 500 "tts_generation_error")
      end
  end.

(** The promises of the batch of [size] units that starts at position
    [i], and the positions of its units. *)
Definition batch_promises (chunks : list jsstring) (size i : nat) : list (timed Blob) :=
  imap (fun j chunk => getAudioChunk (i + j) chunk) (take size (drop i chunks)).

Definition positions (chunks : list jsstring) (size i : nat) : list nat :=
  seq i (Nat.min size (length chunks - i)).

(** The audio of unit [k], when its call is fulfilled. *)
Definition audio (k : nat) (text : jsstring) : Blob :=
  match result (getAudioChunk k text) with
  | Fulfilled blob => blob
  | Rejected _ => []
  end.

(** The failure of unit [k], when its call is rejected. *)
Definition failure (k : nat) (text : jsstring) : option string :=
  match result (getAudioChunk k text) with
  | Fulfilled _ => None
  | Rejected m => Some m
  end.

(** The unit whose error ends a run over [chunks]: it belongs to the
    batch [b], it fails with [m], and no failing unit of [b] settles
    before it. *)
Definition first_to_fail (chunks : list jsstring) (b : list nat) (j : nat) (m : string) : Prop :=
  In j b /\
  (exists text, chunks !! j = Some text /\ failure j text = Some m) /\
  (forall j' text', In j' b -> chunks !! j' = Some text' ->
                    failure j' text' <> None ->
                    (settlesAt env j <= settlesAt env j')%nat).

End Request.

Arguments getAudioChunk : simpl never.
Arguments audio : simpl never.
Arguments failure : simpl never.

Definition is_release (op : writer_op) : bool :=
  match op with Write _ => false | Abort _ => true | Close => true end.

(** Consecutive batches of [size] positions covering [0, n): the
    partition the specification describes. *)
Fixpoint partition_from (fuel start n size : nat) : list (list nat) :=
  match fuel with
  | O => []
  | S fuel' =>
      if (start <? n)%nat
      then seq start (Nat.min size (n - start)) :: partition_from fuel' (start + size) n size
      else []
  end.

Definition consecutive_batches (n size : nat) : list (list nat) :=
  partition_from n 0 n size.

End Tts.


(* ================================================================== *)
(** * Requests, and JavaScript string literals *)
(* ================================================================== *)

Module Http.
Import Js.

(** A literal given as UTF-8 text, as UTF-16 code units. *)
Fixpoint utf16_of_bytes (bytes : list N) : jsstring :=
  match bytes with
  | [] => []
  | b0 :: rest =>
      if (b0 <? 0x80)%N then b0 :: utf16_of_bytes rest
      else if (b0 <? 0xE0)%N then
        match rest with
        | b1 :: rest' =>
            N.lor (N.shiftl (N.land b0 0x1F) 6) (N.land b1 0x3F) :: utf16_of_bytes rest'
        | _ => [0xFFFD%N]
        end
      else if (b0 <? 0xF0)%N then
        match rest with
        | b1 :: b2 :: rest' =>
            N.lor (N.shiftl (N.land b0 0x0F) 12)
                  (N.lor (N.shiftl (N.land b1 0x3F) 6) (N.land b2 0x3F))
              :: utf16_of_bytes rest'
        | _ => [0xFFFD%N]
        end
      else
        match rest with
        | b1 :: b2 :: b3 :: rest' =>
            let cp := N.lor (N.shiftl (N.land b0 0x07) 18)
                        (N.lor (N.shiftl (N.land b1 0x3F) 12)
                           (N.lor (N.shiftl (N.land b2 0x3F) 6) (N.land b3 0x3F))) in
            let v := (cp - 0x10000)%N in
            (0xD800 + N.shiftr v 10)%N :: (0xDC00 + N.land v 0x3FF)%N :: utf16_of_bytes rest'
        | _ => [0xFFFD%N]
        end
  end.

Definition js (s : string) : jsstring :=
  utf16_of_bytes (map N_of_ascii (list_ascii_of_string s)).

(** [a === b] on strings. *)
Fixpoint eqb (a b : jsstring) : bool :=
  match a, b with
  | [], [] => true
  | x :: a', y :: b' => N.eqb x y && eqb a' b'
  | _, _ => false
  end.

(** [s.startsWith(prefix)] *)
Fixpoint startsWith (s prefix : jsstring) : bool :=
  match prefix, s with
  | [], _ => true
  | p :: prefix', c :: s' => N.eqb c p && startsWith s' prefix'
  | _ :: _, [] => false
  end.

(** Truthiness of a string or [null]. *)
Definition truthy (v : option jsstring) : bool :=
  match v with
  | Some (_ :: _) => true
  | _ => false
  end.

(** [a || b] *)
Definition or_else (a b : option jsstring) : option jsstring :=
  if truthy a then a else b.

(** [s.replace(pattern, '')] for a string [pattern]: the first
    occurrence of [pattern] is taken out. *)
Fixpoint remove_first (pattern s : jsstring) : jsstring :=
  if startsWith s pattern then skipn (length pattern) s
  else match s with
       | [] => []
       | c :: rest => c :: remove_first pattern rest
       end.

(** The code points of a string; a surrogate without its partner reads
    as U+FFFD. *)
Fixpoint code_points (s : jsstring) : list N :=
  match s with
  | [] => []
  | c :: rest =>
      if ((0xD800 <=? c) && (c <? 0xDC00))%N then
        match rest with
        | d :: rest' =>
            if ((0xDC00 <=? d) && (d <? 0xE000))%N
            then (0x10000 + (c - 0xD800) * 0x400 + (d - 0xDC00))%N :: code_points rest'
            else 0xFFFD%N :: code_points rest
        | [] => [0xFFFD%N]
        end
      else if ((0xDC00 <=? c) && (c <? 0xE000))%N then 0xFFFD%N :: code_points rest
      else c :: code_points rest
  end.

Definition utf8 (cp : N) : list N :=
  if (cp <? 0x80)%N then [cp]
  else if (cp <? 0x800)%N then
    [N.lor 0xC0 (N.shiftr cp 6); N.lor 0x80 (N.land cp 0x3F)]
  else if (cp <? 0x10000)%N then
    [N.lor 0xE0 (N.shiftr cp 12); N.lor 0x80 (N.land (N.shiftr cp 6) 0x3F);
     N.lor 0x80 (N.land cp 0x3F)]
  else
    [N.lor 0xF0 (N.shiftr cp 18); N.lor 0x80 (N.land (N.shiftr cp 12) 0x3F);
     N.lor 0x80 (N.land (N.shiftr cp 6) 0x3F); N.lor 0x80 (N.land cp 0x3F)].

(** A string as it appears inside a template literal, in the text form
    the messages and the synthesis arguments are kept in: [show (js t)]
    is [t] again. *)
Definition show (s : jsstring) : string :=
  string_of_list_ascii (map ascii_of_N (flat_map utf8 (code_points s))).

(** What the handlers read of a [Request]: the method, two headers
    ([headers.get] gives [null] for a missing one) and the query
    parameters of its URL, in order. *)
Record Request := {
  method : jsstring;
  authorization : option jsstring;
  accessControlRequestHeaders : option jsstring;
  searchParams : list (jsstring * jsstring)
}.

(** [params.get(name)]: the first value under [name], or [null]. *)
Fixpoint get (params : list (jsstring * jsstring)) (name : jsstring) : option jsstring :=
  match params with
  | [] => None
  | (k, v) :: rest => if eqb k name then Some v else get rest name
  end.

End Http.

(* ================================================================== *)
(** * lib/auth.js: the API key *)
(* ================================================================== *)

Module Access.
Import Js Http.

(** The values [validateApiKey] can return. *)
Inductive verdict :=
| VNull
| VString (s : jsstring)
| VBool (b : bool).

(** Truthiness of a verdict, as [!validateApiKey(...)] reads it. *)
Definition granted (v : verdict) : bool :=
  match v with
  | VNull => false
  | VString s => truthy (Some s)
  | VBool b => b
  end.

(** The key the request presents: the bearer token when the
    [Authorization] header starts with ["Bearer "], otherwise
    [searchParams.get("key") || searchParams.get("api_key")]. *)
Definition providedKey (request : Request) : option jsstring :=
  match authorization request with
  | Some authHeader =>
      if truthy (Some authHeader) && startsWith authHeader (js "Bearer ")
      then Some (skipn 7 authHeader)
      else or_else (get (searchParams request) (js "key"))
                   (get (searchParams request) (js "api_key"))
  | None =>
      or_else (get (searchParams request) (js "key"))
              (get (searchParams request) (js "api_key"))
  end.

(** [validateApiKey(request, apiKey)]; [apiKey] is [None] when the
    environment defines none. *)
Definition validateApiKey (request : Request) (apiKey : option jsstring) : verdict :=
  if negb (truthy apiKey) then VBool true
  else
    match providedKey request with
    | None => VNull
    | Some [] => VString []
    | Some provided =>
        VBool match apiKey with
              | Some key => eqb provided key
              | None => false
              end
    end.

End Access.

(* ================================================================== *)
(** * api/v1/models.js *)
(* ================================================================== *)

Module Models.
Import Js Http.

Record model := { id : jsstring; created : Z }.

Inductive reply :=
| Preflight (allowHeaders : option jsstring)
    (** status 204, [Access-Control-Allow-Headers] as given *)
| Refused (status : nat) (message code : jsstring)
    (** [errorResponse(message, status, code)] *)
| ModelList (data : list model).
    (** status 200, [{ object: "list", data }] *)

(** The keys of this file's [OPENAI_VOICE_MAP], in insertion order. *)
Definition voices : list jsstring :=
  [js "alloy"; js "echo"; js "fable"; js "onyx"; js "nova"; js "shimmer"].

(** The endpoint's own key check. *)
Definition authorized (request : Request) (API_KEY : option jsstring) : bool :=
  if truthy API_KEY then
    match authorization request, API_KEY with
    | Some authHeader, Some key =>
        negb (negb (truthy (Some authHeader))
              || negb (startsWith authHeader (js "Bearer "))
              || negb (eqb (skipn 7 authHeader) key))
    | _, _ => false
    end
  else true.

(** [onRequest(context)]; [Date_now k] is what the [k]-th reading of
    [Date.now()] gives. *)
Definition onRequest (Date_now : nat -> Z) (request : Request) (API_KEY : option jsstring)
    : reply :=
  if eqb (method request) (js "OPTIONS") then
    Preflight (accessControlRequestHeaders request)
  else if negb (authorized request API_KEY) then
    Refused 401 (js "无效的 API 密钥") (js "invalid_api_key")
  else
    ModelList
      ({| id := js "tts-1"; created := Date_now 0%nat |}
       :: {| id := js "tts-1-hd"; created := Date_now 1%nat |}
       :: imap (fun k v => {| id := js "tts-1-" ++ v; created := Date_now (2 + k)%nat |})
               voices).

End Models.

(* ================================================================== *)
(** * lib/utils.js: cleanText *)
(* ================================================================== *)

Module Cleaning.
Import Js Http.

(** The replacements of [cleanText] that are left to the regular
    expression engine of the platform, each as the function it is on
    the text. *)
Record Engine := {
  urls : jsstring -> jsstring;
    (** [.replace(/(https?:\/\/[^\s]+)/g, '')] *)
  markdown : jsstring -> jsstring;
    (** the six replacements under [remove_markdown], in order *)
  keywords : jsstring -> jsstring -> jsstring;
    (** the body of [if (custom_keywords)], on [custom_keywords] and the
        text *)
  emoji : jsstring -> jsstring;
    (** [.replace(/\p{Emoji_Presentation}/gu, '')] *)
  citations : jsstring -> jsstring
    (** [.replace(/\s\d{1,2}(?=[.。，,;；:：]|$)/g, '')] *)
}.

(** The options as [cleanText] tests them: the truthiness of each flag,
    and [custom_keywords], a string or [null]. *)
Record options := {
  remove_urls : bool;
  remove_markdown : bool;
  remove_emoji : bool;
  remove_line_breaks : bool;
  remove_citation_numbers : bool;
  custom_keywords : option jsstring
}.

(** [.replace(/\s+/g, ' ')]: every maximal run of whitespace becomes one
    space.  [in_run] tells whether the previous character was
    whitespace. *)
Fixpoint collapse_go (in_run : bool) (s : jsstring) : jsstring :=
  match s with
  | [] => []
  | c :: rest =>
      if is_whitespace c then
        if in_run then collapse_go true rest else 32%N :: collapse_go true rest
      else c :: collapse_go false rest
  end.

Definition collapse (s : jsstring) : jsstring := collapse_go false s.

(** [cleanText(text, options)] *)
Definition cleanText (e : Engine) (text : jsstring) (o : options) : jsstring :=
  let cleanedText := text in
  let cleanedText := if remove_urls o then urls e cleanedText else cleanedText in
  let cleanedText := if remove_markdown o then markdown e cleanedText else cleanedText in
  let cleanedText :=
    match custom_keywords o with
    | Some (k :: ks) => keywords e (k :: ks) cleanedText
    | _ => cleanedText
    end in
  let cleanedText := if remove_emoji o then emoji e cleanedText else cleanedText in
  let cleanedText :=
    if remove_citation_numbers o then citations e cleanedText else cleanedText in
  let cleanedText := if remove_line_breaks o then collapse cleanedText else cleanedText in
  trim cleanedText.

End Cleaning.

(* ================================================================== *)
(** * The speech endpoint: request parameters and the handler *)
(* ================================================================== *)

Module Speech.
Import Js Http Async Access.

(** A member of the request body: absent, [null], or a value of the
    type the API documents for it. *)
Inductive field (A : Type) : Type :=
| Undefined
| Null
| Val (a : A).
Arguments Undefined {A}.
Arguments Null {A}.
Arguments Val {A} a.

(** [cleaning_options] as sent. *)
Module Sent.
Record t := {
  remove_markdown : field bool;
  remove_emoji : field bool;
  remove_urls : field bool;
  remove_line_breaks : field bool;
  remove_citation_numbers : field bool;
  custom_keywords : field jsstring
}.
End Sent.

(** The request body.  A number ([speed], [pitch]) is carried by its
    decimal text, which [parseFloat] and [JSON.parse] read as the same
    number; [concurrency] and [chunk_size] are integers. *)
Module Body.
Record t := {
  model : field jsstring;
  input : field jsstring;
  voice : field jsstring;
  speed : field jsstring;
  pitch : field jsstring;
  style : field jsstring;
  stream : field bool;
  concurrency : field Z;
  chunk_size : field Z;
  cleaning_options : field Sent.t
}.
End Body.

(** What [await request.json()] gives: a [SyntaxError], or the parsed
    value, [None] for [null].  A value that is not an object has none
    of the members. *)
Inductive posted :=
| SyntaxError (message : string)
| Json (value : option Body.t).

(** What the handler takes from the platform besides the regular
    expressions of [cleanText]. *)
Record Platform := {
  engine : Cleaning.Engine;
  percent : jsstring -> string;
    (** [((x - 1) * 100).toFixed(0)] for the number [x] with the given
        text *)
  inherited : jsstring -> option string;
    (** the property an object literal inherits under this name, inside
        a template literal; these are functions and objects, all truthy *)
  destructuring_null : string;
    (** the message of the [TypeError] of [const { ... } = null] *)
  replace_of_null : string
    (** the message of the [TypeError] of [null.replace(...)] *)
}.

(** The object [processRequestParams] returns.  [finalVoice] and [style]
    are kept as [getSsml] prints them; [stream], [concurrency] and
    [chunk_size] as [if], [Math.min] and [<=] read them ([null] is
    falsy, and 0 as a number). *)
Module Params.
Record t := {
  input : jsstring;
  finalVoice : string;
  rate : string;
  finalPitch : string;
  style : string;
  outputFormat : string;
  stream : bool;
  concurrency : Z;
  chunk_size : Z;
  finalCleaningOptions : Cleaning.options
}.
End Params.

(** [OPENAI_VOICE_MAP] of lib/utils.js. *)
Definition OPENAI_VOICE_MAP : list (jsstring * string) :=
  [(js "shimmer", "zh-CN-XiaoxiaoNeural"); (js "alloy", "zh-CN-YunyangNeural");
   (js "fable", "zh-CN-YunjianNeural"); (js "onyx", "zh-CN-XiaoyiNeural");
   (js "nova", "zh-CN-YunxiNeural"); (js "echo", "zh-CN-liaoning-XiaobeiNeural")]%string.

Fixpoint own (map : list (jsstring * string)) (name : jsstring) : option string :=
  match map with
  | [] => None
  | (k, v) :: rest => if eqb k name then Some v else own rest name
  end.

(** [OPENAI_VOICE_MAP[name]]: an own property, or else an inherited
    one. *)
Definition lookup (p : Platform) (name : jsstring) : option string :=
  match own OPENAI_VOICE_MAP name with
  | Some v => Some v
  | None => inherited p name
  end.

(** [a || "literal"] *)
Definition or_literal (a : option jsstring) (literal : jsstring) : jsstring :=
  match a with
  | Some (c :: s) => c :: s
  | _ => literal
  end.

Definition nullable (v : option jsstring) : field jsstring :=
  match v with
  | Some s => Val s
  | None => Null
  end.

(** [parseRequestParams(request)] *)
Definition parseRequestParams (request : Request) (json : posted)
    : settled (option Body.t) :=
  if eqb (method request) (js "GET") then
    let params := searchParams request in
    Fulfilled (Some {|
      Body.input := nullable (or_else (get params (js "input")) (get params (js "t")));
      Body.voice := nullable (or_else (get params (js "voice")) (get params (js "v")));
      Body.model := Val (or_literal (get params (js "model")) (js "tts-1"));
      Body.speed :=
        Val (or_literal (or_else (get params (js "speed")) (get params (js "r")))
                        (js "1.0"));
      Body.pitch :=
        Val (or_literal (or_else (get params (js "pitch")) (get params (js "p")))
                        (js "1.0"));
      Body.style :=
        Val (or_literal (or_else (get params (js "style")) (get params (js "s")))
                        (js "general"));
      Body.stream :=
        Val match get params (js "stream") with
            | Some v => eqb v (js "true")
            | None => false
            end;
      Body.concurrency := Undefined;
      Body.chunk_size := Undefined;
      Body.cleaning_options := Undefined |})
  else
    match json with
    | SyntaxError message => Rejected ("JSON 解析错误: " ++ message)%string
    | Json value => Fulfilled value
    end.

(** A flag of the merged cleaning options, as [cleanText] tests it. *)
Definition flag (sent : field bool) : bool :=
  match sent with
  | Undefined => true
  | Null => false
  | Val b => b
  end.

(** [{ remove_markdown: true, ..., custom_keywords: "", ...cleaning_options }] *)
Definition merged (cleaning_options : field Sent.t) : Cleaning.options :=
  match cleaning_options with
  | Val o =>
      {| Cleaning.remove_urls := flag (Sent.remove_urls o);
         Cleaning.remove_markdown := flag (Sent.remove_markdown o);
         Cleaning.remove_emoji := flag (Sent.remove_emoji o);
         Cleaning.remove_line_breaks := flag (Sent.remove_line_breaks o);
         Cleaning.remove_citation_numbers := flag (Sent.remove_citation_numbers o);
         Cleaning.custom_keywords :=
           match Sent.custom_keywords o with
           | Undefined => Some []
           | Null => None
           | Val k => Some k
           end |}
  | _ =>
      {| Cleaning.remove_urls := true; Cleaning.remove_markdown := true;
         Cleaning.remove_emoji := true; Cleaning.remove_line_breaks := true;
         Cleaning.remove_citation_numbers := true;
         Cleaning.custom_keywords := Some [] |}
  end.

(** [((x - 1) * 100).toFixed(0)] for a member [x = 1.0] by default. *)
Definition percentage (p : Platform) (x : field jsstring) : string :=
  match x with
  | Undefined => "0"
  | Null => "-100"
  | Val text => percent p text
  end.

(** The returned object, once [finalVoice] is known. *)
Definition accepted (p : Platform) (b : Body.t) (input : jsstring) (finalVoice : string)
    : Params.t :=
  {| Params.input := input;
     Params.finalVoice := finalVoice;
     Params.rate := percentage p (Body.speed b);
     Params.finalPitch := percentage p (Body.pitch b);
     Params.style :=
       match Body.style b with
       | Undefined => "general"
       | Null => "null"
       | Val s => show s
       end;
     Params.outputFormat := "audio-24khz-48kbitrate-mono-mp3";
     Params.stream :=
       match Body.stream b with
       | Val v => v
       | _ => false
       end;
     Params.concurrency :=
       match Body.concurrency b with
       | Undefined => 10
       | Null => 0
       | Val n => n
       end;
     Params.chunk_size :=
       match Body.chunk_size b with
       | Undefined => 300
       | Null => 0
       | Val n => n
       end;
     Params.finalCleaningOptions := merged (Body.cleaning_options b) |}.

(** The voice looked up from the model when [!voice] holds; [printed]
    is the falsy voice inside the error's template literal. *)
Definition from_model (p : Platform) (b : Body.t) (input : jsstring) (printed : string)
    : settled Params.t :=
  match Body.model b with
  | Null => Rejected (replace_of_null p)
  | m =>
      let model := match m with Val model => model | _ => js "tts-1" end in
      match lookup p (remove_first (js "tts-1-") model) with
      | Some modelVoice => Fulfilled (accepted p b input modelVoice)
      | None =>
          Rejected ("无效的语音模型 - model: " ++ show model ++ ", voice: " ++ printed)%string
      end
  end.

(** [processRequestParams(requestBody, OPENAI_VOICE_MAP)]; [Rejected]
    carries the message of what it throws. *)
Definition processRequestParams (p : Platform) (requestBody : option Body.t)
    : settled Params.t :=
  match requestBody with
  | None => Rejected (destructuring_null p)
  | Some b =>
      match Body.input b with
      | Val (c :: rest) =>
          let input := c :: rest in
          match Body.voice b with
          | Undefined => Fulfilled (accepted p b input "shimmer")
          | Val (v :: vs) => Fulfilled (accepted p b input (show (v :: vs)))
          | Val [] => from_model p b input ""
          | Null => from_model p b input "null"
          end
      | _ => Rejected "'input' 是必需参数"
      end
  end.

Definition ttsArgs_of (q : Params.t) : Tts.ttsArgs :=
  {| Tts.voiceName := Params.finalVoice q; Tts.rate := Params.rate q;
     Tts.pitch := Params.finalPitch q; Tts.style := Params.style q;
     Tts.outputFormat := Params.outputFormat q |}.

(** [handleSpeechRequest(request)]: what it returns or throws; [None]
    when it does neither. *)
Definition handleSpeechRequest (p : Platform) (env : Tts.Env) (request : Request)
    (json : posted) : option (settled Tts.Response) :=
  if negb (eqb (method request) (js "POST")) && negb (eqb (method request) (js "GET")) then
    Some (Fulfilled (Tts.errorResponse "不允许的方法" 405 "method_not_allowed"))
  else
    match parseRequestParams request json with
    | Rejected message => Some (Rejected message)
    | Fulfilled requestBody =>
        match processRequestParams p requestBody with
        | Rejected message => Some (Rejected message)
        | Fulfilled params =>
            let cleanedInput :=
              Cleaning.cleanText (engine p) (Params.input params)
                (Params.finalCleaningOptions params) in
            match TextProcessing.smartChunkText cleanedInput (Params.chunk_size params) with
            | None => None
            | Some textChunks =>
                if Params.stream params then
                  match Tts.streamVoice env (ttsArgs_of params) textChunks
                          (Params.concurrency params) with
                  | Some response => Some (Fulfilled response)
                  | None => None
                  end
                else
                  match Tts.getVoice env (ttsArgs_of params) textChunks
                          (Params.concurrency params) with
                  | Some (response, _) => Some (Fulfilled response)
                  | None => None
                  end
            end
        end
    end.

Inductive reply :=
| Preflight (allowHeaders : option jsstring)
    (** status 204, no body *)
| Answered (response : Tts.Response).

(** [onRequest(context)] of the speech endpoint, with
    [context.env.API_KEY]. *)
Definition onRequest (p : Platform) (env : Tts.Env) (request : Request) (json : posted)
    (API_KEY : option jsstring) : option reply :=
  if eqb (method request) (js "OPTIONS") then
    Some (Preflight (accessControlRequestHeaders request))
  else if truthy API_KEY && negb (granted (validateApiKey request API_KEY)) then
    Some (Answered (Tts.errorResponse "无效的 API 密钥" 401 "invalid_api_key"))
  else
    match handleSpeechRequest p env request json with
    | None => None
    | Some (Fulfilled response) => Some (Answered response)
    | Some (Rejected message) =>
        Some (Answered (Tts.errorResponse ("处理错误: " ++ message)%string 500
                          "internal_server_error"))
    end.

End Speech.

(* ================================================================== *)
(** * Concrete inputs *)
(* ================================================================== *)

Module Examples.
Import Js Async.
Local Open Scope string_scope.

Definition args : Tts.ttsArgs :=
  {| Tts.voiceName := "zh-CN-XiaoxiaoNeural"; Tts.rate := "0"; Tts.pitch := "0";
     Tts.style := "general"; Tts.outputFormat := "audio-24khz-48kbitrate-mono-mp3" |}.

Definition here : Auth.Endpoint := {| Auth.r := "eastasia"; Auth.t := "a.b.c" |}.

(** Every unit is synthesised; unit [k] answers with the byte [k]
    followed by its text, and later units settle earlier. *)
Definition all_ok : Tts.Env :=
  {| Tts.endpointOf := fun _ => Fulfilled here;
     Tts.fetchOf := fun k _ _ text => Tts.Answer true 200 "OK" "" (N.of_nat k :: text);
     Tts.settlesAt := fun k => (100 - k)%nat |}.

(** The backend refuses the unit at position [bad]. *)
Definition refuses (bad : nat) : Tts.Env :=
  {| Tts.endpointOf := fun _ => Fulfilled here;
     Tts.fetchOf := fun k _ _ text =>
       if (k =? bad)%nat then Tts.Answer false 429 "Too Many Requests" "slow down" []
       else Tts.Answer true 200 "OK" "" (N.of_nat k :: text);
     Tts.settlesAt := fun k => (100 - k)%nat |}.

(** A cache holding a token that expires in 2033. *)
Definition cached : Auth.State :=
  {| Auth.tokenInfo :=
       {| Auth.endpoint := Some here; Auth.token := Some "a.b.c";
          Auth.expiredAt := Some 2000000000 |};
     Auth.tokenRefreshing := false;
     Auth.tokenRefreshPromise := None;
     Auth.promises := [Auth.Settled (Fulfilled here)];
     Auth.requests := 1 |}.

(** A cache whose token expired in 2020, as left by an earlier
    refresh. *)
Definition stale : Auth.State :=
  {| Auth.tokenInfo :=
       {| Auth.endpoint := Some here; Auth.token := Some "a.b.c";
          Auth.expiredAt := Some 1600000000 |};
     Auth.tokenRefreshing := false;
     Auth.tokenRefreshPromise := None;
     Auth.promises := [Auth.Settled (Fulfilled here)];
     Auth.requests := 1 |}.

Definition earlier : list Auth.event :=
  [Auth.Call 1599990000000; Auth.SignSettled 0 (Fulfilled "signature");
   Auth.FetchSettled 0 (Auth.Granted here (Some 1600000000))].

(** [Date.now()] on 2023-11-14. *)
Definition today : Z := 1700000000000.

(** Three callers, the signature arriving between the second and the
    third. *)
Definition three_callers : list Auth.event :=
  [Auth.Call today; Auth.Call today; Auth.SignSettled 0 (Fulfilled "signature");
   Auth.Call today].

(** Three callers and nothing else. *)
Definition three_calls : list Auth.event :=
  [Auth.Call today; Auth.Call today; Auth.Call today].

(** A cache whose first refresh has sent its request and awaits the
    answer. *)
Definition fetching : Auth.State :=
  {| Auth.tokenInfo := Auth.empty_tokenInfo;
     Auth.tokenRefreshing := true;
     Auth.tokenRefreshPromise := Some 0%nat;
     Auth.promises := [Auth.Pending Auth.Fetching];
     Auth.requests := 1 |}.

(** A longer history: the earlier refresh, then a call, an
    invalidation during its refresh, another call, and the signature of
    the later refresh arriving. *)
Definition history : list Auth.event :=
  earlier ++ [Auth.Call today; Auth.Clear; Auth.Call today;
              Auth.SignSettled 2 (Fulfilled "signature")].

Definition seven : list jsstring := map lit ["a"; "b"; "c"; "d"; "e"; "f"; "g"].

(** The configured API key. *)
Definition key : jsstring := Http.js "secret".

(** [POST /v1/audio/speech] with [Authorization: Bearer secret]. *)
Definition by_header : Http.Request :=
  {| Http.method := Http.js "POST";
     Http.authorization := Some (Http.js "Bearer secret");
     Http.accessControlRequestHeaders := None;
     Http.searchParams := [] |}.

(** [GET /v1/audio/speech?key=&api_key=secret&input=...&voice=alloy] *)
Definition by_query : Http.Request :=
  {| Http.method := Http.js "GET";
     Http.authorization := None;
     Http.accessControlRequestHeaders := None;
     Http.searchParams :=
       [(Http.js "key", []); (Http.js "api_key", Http.js "secret");
        (Http.js "input", Http.js "Hello,  world.  Bye.");
        (Http.js "voice", Http.js "alloy")] |}.

(** [GET /v1/audio/speech?key=secret&input=Hello] with
    [Authorization: Bearer guess]. *)
Definition wrong_header : Http.Request :=
  {| Http.method := Http.js "GET";
     Http.authorization := Some (Http.js "Bearer guess");
     Http.accessControlRequestHeaders := None;
     Http.searchParams := [(Http.js "key", Http.js "secret"); (Http.js "input", Http.js "Hello")] |}.

(** [GET /v1/audio/speech?input=Hello] *)
Definition no_voice : Http.Request :=
  {| Http.method := Http.js "GET";
     Http.authorization := None;
     Http.accessControlRequestHeaders := None;
     Http.searchParams := [(Http.js "input", Http.js "Hello")] |}.

(** [GET /v1/audio/speech?voice=alloy] *)
Definition no_input : Http.Request :=
  {| Http.method := Http.js "GET";
     Http.authorization := None;
     Http.accessControlRequestHeaders := None;
     Http.searchParams := [(Http.js "voice", Http.js "alloy")] |}.

(** [DELETE /v1/audio/speech] *)
Definition delete : Http.Request :=
  {| Http.method := Http.js "DELETE";
     Http.authorization := None;
     Http.accessControlRequestHeaders := None;
     Http.searchParams := [] |}.

(** A platform for requests whose text holds nothing the regular
    expressions of [cleanText] match, and whose speed and pitch are
    1.0. *)
Definition plain : Speech.Platform :=
  {| Speech.engine :=
       {| Cleaning.urls := fun text => text;
          Cleaning.markdown := fun text => text;
          Cleaning.keywords := fun _ text => text;
          Cleaning.emoji := fun text => text;
          Cleaning.citations := fun text => text |};
     Speech.percent := fun _ => "0";
     Speech.inherited := fun _ => None;
     Speech.destructuring_null :=
       "Cannot destructure property 'model' of 'requestBody' as it is null.";
     Speech.replace_of_null := "Cannot read properties of null (reading 'replace')" |}.

(** The body [{ "input": "Hi. There.", "concurrency": 0 }]. *)
Definition zero_concurrency : Speech.Body.t :=
  {| Speech.Body.model := Speech.Undefined;
     Speech.Body.input := Speech.Val (Http.js "Hi. There.");
     Speech.Body.voice := Speech.Undefined;
     Speech.Body.speed := Speech.Undefined;
     Speech.Body.pitch := Speech.Undefined;
     Speech.Body.style := Speech.Undefined;
     Speech.Body.stream := Speech.Undefined;
     Speech.Body.concurrency := Speech.Val 0;
     Speech.Body.chunk_size := Speech.Undefined;
     Speech.Body.cleaning_options := Speech.Undefined |}.

(** The body [{ "input": "Hi.", "voice": null, "model": "tts-1-nova" }]. *)
Definition nova : Speech.Body.t :=
  {| Speech.Body.model := Speech.Val (Http.js "tts-1-nova");
     Speech.Body.input := Speech.Val (Http.js "Hi.");
     Speech.Body.voice := Speech.Null;
     Speech.Body.speed := Speech.Undefined;
     Speech.Body.pitch := Speech.Undefined;
     Speech.Body.style := Speech.Undefined;
     Speech.Body.stream := Speech.Undefined;
     Speech.Body.concurrency := Speech.Undefined;
     Speech.Body.chunk_size := Speech.Undefined;
     Speech.Body.cleaning_options := Speech.Undefined |}.

(** The body [{ "input": "Hi.", "voice": "alloy", "model": "tts-1-nova" }]. *)
Definition alloy : Speech.Body.t :=
  {| Speech.Body.model := Speech.Val (Http.js "tts-1-nova");
     Speech.Body.input := Speech.Val (Http.js "Hi.");
     Speech.Body.voice := Speech.Val (Http.js "alloy");
     Speech.Body.speed := Speech.Undefined;
     Speech.Body.pitch := Speech.Undefined;
     Speech.Body.style := Speech.Undefined;
     Speech.Body.stream := Speech.Undefined;
     Speech.Body.concurrency := Speech.Undefined;
     Speech.Body.chunk_size := Speech.Undefined;
     Speech.Body.cleaning_options := Speech.Undefined |}.

(** The default cleaning options. *)
Definition defaults : Cleaning.options := Speech.merged Speech.Undefined.

(** A line feed, [" a "], a tab, a line feed, ["b "]. *)
Definition untidy : jsstring := [10; 32; 97; 32; 9; 10; 98; 32]%N.

End Examples.

Import Js TextProcessing Async.

(* ================================================================== *)
(** * Effective concurrency *)
(* ================================================================== *)

Section Concurrency.
Import Tts.

(** [ceil_div a 3] is the least integer [k] with [a <= 3 * k]. *)
Lemma ceil_div3_spec (a : Z) : 3 * (ceil_div a 3 - 1) < a <= 3 * ceil_div a 3.
Proof.
  unfold ceil_div.
  pose proof (Z.div_mod (- a) 3 ltac:(lia)) as Hdm.
  pose proof (Z.mod_pos_bound (- a) 3 ltac:(lia)) as Hb.
  lia.
Qed.

Lemma ceil_div3_unique (a k : Z) : 3 * (k - 1) < a <= 3 * k -> ceil_div a 3 = k.
Proof. intros H. pose proof (ceil_div3_spec a). lia. Qed.

(** C3, at the input where it fails: with a requested concurrency of 1
    and 5 units the effective concurrency is 1, below [min 5 5]. *)
Lemma optimalConcurrency_below_five :
  1 <= 1 /\ (1 <= 5)%nat /\ (5 <= 5)%nat /\
  optimalConcurrency 1 5 = 1 /\
  ~ Z.min 5 (Z.of_nat 5) <= optimalConcurrency 1 5.
Proof.
  assert (E : optimalConcurrency 1 5 = 1) by reflexivity.
  rewrite E. lia.
Qed.

(** C3 (amended): for a requested concurrency [c >= 1] and [n >= 1]
    units, the effective concurrency is [min c n (max 5 k)] where [k] is
    the ceiling of [n / 3]; it lies in [1, n]; it is at least
    [min 5 n c], hence at least [min 5 n] as soon as [c >= 5]. *)
Theorem optimalConcurrency_bounds (c : Z) (n : nat) :
  1 <= c -> (1 <= n)%nat ->
  (exists k, 3 * (k - 1) < Z.of_nat n <= 3 * k /\
             optimalConcurrency c n = Z.min c (Z.min (Z.of_nat n) (Z.max 5 k))) /\
  1 <= optimalConcurrency c n <= Z.of_nat n /\
  Z.min 5 (Z.min (Z.of_nat n) c) <= optimalConcurrency c n /\
  (5 <= c -> (5 <= n)%nat -> Z.min 5 (Z.of_nat n) <= optimalConcurrency c n).
Proof.
  intros Hc Hn.
  pose proof (ceil_div3_spec (Z.of_nat n)) as Hk.
  split; [ exists (ceil_div (Z.of_nat n) 3); split; [ exact Hk | reflexivity ] | ].
  unfold optimalConcurrency. lia.
Qed.

Lemma optimalConcurrency_bounds_witness :
  1 <= 3 /\ (1 <= 7)%nat /\
  optimalConcurrency 3 7 = 3 /\
  1 <= optimalConcurrency 3 7 <= Z.of_nat 7.
Proof.
  split; [ lia | ]. split; [ lia | ]. split; [ reflexivity | ].
  exact (proj1 (proj2 (optimalConcurrency_bounds 3 7 ltac:(lia) ltac:(lia)))).
Defined.

End Concurrency.

(* ================================================================== *)
(** * The empty chunk list *)
(* ================================================================== *)

Section EmptyInput.
Import Tts.
Variable env : Env.
Variable args : ttsArgs.

(** C10: on an empty chunk list, whatever the requested concurrency,
    [getVoice] starts no call and answers 200 [audio/mpeg] with an empty
    body, and [pipeChunksToStream] starts no call, writes nothing and
    closes the writer, once, without aborting it. *)
Theorem empty_chunk_list_succeeds (concurrency : Z) :
  getVoice env args [] concurrency =
    Some ({| status := 200; contentType := "audio/mpeg"; payload := Audio [] |}, [])
  /\ pipeChunksToStream env args [] concurrency =
    Some {| outcome := Fulfilled tt; writer := [Close]; batches := [] |}
  /\ streamVoice env args [] concurrency =
    Some {| status := 200; contentType := "audio/mpeg"; payload := Readable [] |}.
Proof. repeat split. Qed.

End EmptyInput.

(* ================================================================== *)
(** * The writer's release calls *)
(* ================================================================== *)

Section Writer.
Import Tts.
Variable env : Env.
Variable args : ttsArgs.

Lemma pipe_loop_writes fuel chunks oc :
  forall i ops started res ops' started' ws,
    ops = map Write ws ->
    pipe_loop env args fuel chunks oc i ops started = Some (res, ops', started') ->
    exists ws', ops' = map Write ws'.
Proof.
  induction fuel as [|fuel IH]; intros i ops started res ops' started' ws Hops H;
    simpl in H; destruct (i <? Z.of_nat (length chunks)); try discriminate.
  - injection H as <- <- <-. eauto.
  - destruct (promise_all (audioPromises env args chunks i oc)) as [blobs|m].
    + eapply (IH _ _ _ _ _ _ (ws ++ blobs)); [ | exact H ].
      rewrite Hops, map_app. reflexivity.
    + injection H as <- <- <-. eauto.
  - injection H as <- <- <-. eauto.
Qed.

(** Both exits of [pipeChunksToStream]: after the writes, a lone
    [close()] when every batch succeeded; [abort(error)] followed by
    [close()] when a call failed. *)
Lemma pipe_release_calls chunks concurrency p :
  pipeChunksToStream env args chunks concurrency = Some p ->
  match outcome p with
  | Fulfilled _ => exists ws, writer p = map Write ws ++ [Close]
  | Rejected _ => exists ws m, writer p = map Write ws ++ [Abort m; Close]
  end.
Proof.
  unfold pipeChunksToStream.
  destruct (pipe_loop env args (length chunks) chunks _ 0 [] []) as [[[res ops] started]|] eqn:E;
    [ | discriminate ].
  destruct (pipe_loop_writes _ _ _ _ _ _ _ _ _ [] eq_refl E) as [ws ->].
  destruct res as [?|m]; intros [= <-]; simpl.
  - eauto.
  - exists ws, m. rewrite <- app_assoc. reflexivity.
Qed.

Lemma releases_after_writes ws tail :
  length (List.filter is_release (map Write ws ++ tail)) = length (List.filter is_release tail).
Proof. induction ws as [|w ws IH]; simpl; auto. Qed.

(** On the success path the writer is released once, by [close()]. *)
Lemma pipe_success_closes_once chunks concurrency p :
  pipeChunksToStream env args chunks concurrency = Some p ->
  outcome p = Fulfilled tt ->
  List.filter is_release (writer p) = [Close].
Proof.
  intros H Hout. apply pipe_release_calls in H. rewrite Hout in H.
  destruct H as [ws ->]. induction ws; simpl; auto.
Qed.

(** On the failure path it is released twice: [abort], then [close]. *)
Lemma pipe_failure_aborts_then_closes chunks concurrency p m :
  pipeChunksToStream env args chunks concurrency = Some p ->
  outcome p = Rejected m ->
  exists m', List.filter is_release (writer p) = [Abort m'; Close].
Proof.
  intros H Hout. apply pipe_release_calls in H. rewrite Hout in H.
  destruct H as (ws & m' & ->). exists m'. induction ws; simpl; auto.
Qed.

End Writer.

(** C5, at a failing input: one chunk whose synthesis the backend
    refuses.  The writer receives [abort(error)] from the [catch] block
    and then [close()] from the [finally] block: two release calls where
    the specification asks for one. *)
Theorem pipe_failing_unit_aborts_and_closes :
  exists p m,
    Tts.pipeChunksToStream (Examples.refuses 0) Examples.args [lit "a"] 10 = Some p /\
    Tts.outcome p = Rejected ("流式处理失败: " ++ m)%string /\
    Tts.writer p = [Tts.Abort m; Tts.Close] /\
    length (List.filter Tts.is_release (Tts.writer p)) = 2%nat.
Proof. eexists; eexists; repeat split. Qed.

(* ================================================================== *)
(** * A valid cached token *)
(* ================================================================== *)

Section ValidToken.
Import Auth.

(** The validity check, spelled out: a non-empty token, an expiry that
    is a non-zero number, and [now] more than five minutes before it. *)
Lemma token_valid_spec (Date_now : Z) (ti : TokenInfo) :
  token_valid Date_now ti = true <->
  exists tk e, token ti = Some tk /\ tk <> ""%string /\
               expiredAt ti = Some e /\ e <> 0 /\ Date_now < 1000 * (e - 300).
Proof.
  unfold token_valid, truthy_string, truthy_number, TOKEN_REFRESH_BEFORE_EXPIRY.
  destruct (token ti) as [tk|], (expiredAt ti) as [e|]; simpl;
    try (split; [ discriminate | intros (? & ? & ? & ? & ? & ? & ?); discriminate ]).
  - rewrite !andb_true_iff, !negb_true_iff, String.eqb_neq, Z.eqb_neq, Z.ltb_lt.
    change (5 * 60) with 300.
    split.
    + intros [[? ?] ?]. exists tk, e. auto.
    + intros (? & ? & [= <-] & ? & [= <-] & ? & ?). auto.
  - rewrite andb_false_r. simpl.
    split; [ discriminate | intros (? & ? & ? & ? & ? & ? & ?); discriminate ].
Qed.

(** After the epoch the expiry of a valid token cannot be zero. *)
Lemma token_valid_after_epoch (Date_now : Z) (ti : TokenInfo) tk e :
  0 <= Date_now -> token ti = Some tk -> tk <> ""%string ->
  expiredAt ti = Some e -> Date_now < 1000 * (e - 300) ->
  token_valid Date_now ti = true.
Proof. intros. apply token_valid_spec. exists tk, e. repeat split; auto; lia. Qed.

(** C9: a call made while the cached token passes the validity check
    returns the cached endpoint at once and changes nothing: the three
    module variables, the set of refresh promises and the number of
    requests sent are what they were, whatever the refresh flags say. *)
Theorem getEndpoint_valid_token_is_read_only (Date_now : Z) (s : State) :
  token_valid Date_now (tokenInfo s) = true ->
  getEndpoint Date_now s = (s, Value (endpoint (tokenInfo s))) /\
  step s (Call Date_now) = Some (s, [Value (endpoint (tokenInfo s))]) /\
  (forall s' ret, getEndpoint Date_now s = (s', ret) ->
     tokenInfo s' = tokenInfo s /\ tokenRefreshing s' = tokenRefreshing s /\
     tokenRefreshPromise s' = tokenRefreshPromise s /\
     promises s' = promises s /\ requests s' = requests s /\
     in_flight s' = in_flight s).
Proof.
  intros Hv.
  assert (E : getEndpoint Date_now s = (s, Value (endpoint (tokenInfo s)))).
  { unfold getEndpoint. rewrite Hv. reflexivity. }
  split; [ exact E | ]. split.
  - simpl. rewrite E. reflexivity.
  - intros s' ret H. rewrite E in H. injection H as <- <-. repeat split.
Qed.

End ValidToken.

Lemma getEndpoint_valid_token_is_read_only_witness :
  Auth.token_valid 1700000000000 (Auth.tokenInfo Examples.cached) = true /\
  Auth.getEndpoint 1700000000000 Examples.cached =
    (Examples.cached, Auth.Value (Some Examples.here)).
Proof.
  split; [ reflexivity | ].
  exact (proj1 (getEndpoint_valid_token_is_read_only 1700000000000 Examples.cached eq_refl)).
Defined.

(* ================================================================== *)
(** * The chunker *)
(* ================================================================== *)

Section Chunker.

Lemma split_go_concat text : forall cur b, concat (split_go text cur b) = cur ++ text.
Proof.
  induction text as [|c rest IH]; intros cur b; simpl.
  - destruct b; simpl; rewrite ?app_nil_r; reflexivity.
  - destruct (Bool.eqb (is_delimiter c) b); simpl; rewrite IH.
    + rewrite <- app_assoc. reflexivity.
    + reflexivity.
Qed.

(** The pieces, joined, are the text: the split drops nothing. *)
Lemma split_concat text : concat (split text) = text.
Proof. apply split_go_concat. Qed.

Lemma split_go_nonempty text : forall cur b, split_go text cur b <> [].
Proof.
  induction text as [|c rest IH]; intros cur b; simpl.
  - destruct b; discriminate.
  - destruct (Bool.eqb (is_delimiter c) b); [ apply IH | discriminate ].
Qed.

Lemma loop_body_parts maxChunkLength a part : parts (loop_body maxChunkLength a part) <> [].
Proof.
  unfold loop_body. destruct (_ <=? _); simpl; [ | discriminate ].
  destruct (parts a); discriminate.
Qed.

Lemma loop_parts maxChunkLength pieces :
  forall a, pieces <> [] \/ parts a <> [] ->
            parts (fold_left (loop_body maxChunkLength) pieces a) <> [].
Proof.
  induction pieces as [|p ps IH]; intros a H; simpl.
  - destruct H as [H|H]; [ congruence | exact H ].
  - apply IH. right. apply loop_body_parts.
Qed.

(** The boundary-aware pass never yields zero units: the flush after the
    loop always finds a piece in [parts].  The fixed-width slicer is
    therefore never entered. *)
Lemma boundary_pass_nonempty text maxChunkLength : boundary_pass text maxChunkLength <> [].
Proof.
  unfold boundary_pass, flush.
  pose proof (loop_parts maxChunkLength (split text) (Acc [] [] 0)
                (or_introl (split_go_nonempty text [] false))) as Hp.
  destruct (parts _) as [|x xs]; [ congruence | ].
  simpl. destruct (chunks _); discriminate.
Qed.

(** [smartChunkText] returns on every input, and what it returns is the
    boundary-aware pass without its empty units. *)
Lemma smartChunkText_boundary text maxChunkLength :
  text <> [] ->
  smartChunkText text maxChunkLength =
    Some (List.filter nonempty (boundary_pass text maxChunkLength)).
Proof.
  intros Ht. unfold smartChunkText.
  destruct text as [|c rest]; [ congruence | ].
  pose proof (boundary_pass_nonempty (c :: rest) maxChunkLength) as Hne.
  destruct (boundary_pass (c :: rest) maxChunkLength); [ congruence | reflexivity ].
Qed.


(** C4, at a failing input: a 20-character word followed by a full stop,
    with [maxChunkLength = 10].  The boundary-aware pass yields two
    units, so the fixed-width slicer is not taken, and the first unit is
    the whole word, longer than [maxChunkLength]. *)
Theorem smartChunkText_overlong_unit :
  smartChunkText (lit "internationalization.") 10 =
    Some [lit "internationalization"; lit "."] /\
  boundary_pass (lit "internationalization.") 10 =
    [lit "internationalization"; lit "."] /\
  10 < Z.of_nat (length (lit "internationalization")).
Proof. repeat split. Qed.

End Chunker.

Section Reconstruction.

Lemma trimStart_split s : exists l, blank l /\ s = l ++ trimStart s.
Proof.
  induction s as [|c rest (l & Hl & IH)]; simpl.
  - exists []. split; [ constructor | reflexivity ].
  - destruct (is_whitespace c) eqn:Hc.
    + exists (c :: l). split; [ constructor; assumption | ]. simpl. congruence.
    + exists []. split; [ constructor | reflexivity ].
Qed.

Lemma trimEnd_split s : exists r, blank r /\ s = trimEnd s ++ r.
Proof.
  destruct (trimStart_split (rev s)) as (l & Hl & E).
  exists (rev l). split.
  - apply Forall_rev. exact Hl.
  - unfold trimEnd. rewrite <- rev_app_distr, <- E, rev_involutive. reflexivity.
Qed.

(** Trimming removes whitespace only, at the two ends. *)
Lemma trim_split s : exists l r, blank l /\ blank r /\ s = l ++ trim s ++ r.
Proof.
  destruct (trimStart_split s) as (l & Hl & E).
  destruct (trimEnd_split (trimStart s)) as (r & Hr & E').
  exists l, r. repeat split; auto. unfold trim. congruence.
Qed.

Lemma trim_length s : (length (trim s) <= length s)%nat.
Proof.
  destruct (trim_split s) as (l & r & _ & _ & E).
  rewrite E at 2. rewrite !length_app. lia.
Qed.

Lemma reconstructs_blank_left w us text :
  blank w -> reconstructs us text -> reconstructs us (w ++ text).
Proof.
  intros Hw H. destruct H as [w' Hw'|w' u us rest Hw' H].
  - constructor. apply Forall_app. split; assumption.
  - rewrite app_assoc. constructor; [ apply Forall_app; split | ]; assumption.
Qed.

Lemma reconstructs_app us vs a b :
  reconstructs us a -> reconstructs vs b -> reconstructs (us ++ vs) (a ++ b).
Proof.
  intros Ha Hb. induction Ha as [w Hw|w u us rest Hw Ha IH]; simpl.
  - apply reconstructs_blank_left; assumption.
  - rewrite <- !app_assoc. constructor; assumption.
Qed.

(** A flushed unit, once the empty ones are filtered out, rebuilds the
    buffer it was trimmed from. *)
Lemma trim_reconstructs s : reconstructs (List.filter nonempty [trim s]) s.
Proof.
  destruct (trim_split s) as (l & r & Hl & Hr & E).
  simpl. destruct (trim s) as [|c u] eqn:Et; simpl.
  - constructor. rewrite E. simpl. apply Forall_app. split; assumption.
  - rewrite E. constructor; [ assumption | ]. constructor. assumption.
Qed.

Lemma flush_reconstructs cs ps pre :
  reconstructs (List.filter nonempty cs) pre ->
  reconstructs (List.filter nonempty (flush cs ps)) (pre ++ concat ps).
Proof.
  intros H. unfold flush. destruct ps as [|p ps].
  - simpl. rewrite app_nil_r. exact H.
  - change (0 <? length (p :: ps))%nat with true. cbv iota.
    rewrite List.filter_app. apply reconstructs_app; [ exact H | apply trim_reconstructs ].
Qed.

Lemma loop_body_reconstructs maxChunkLength a part pre :
  reconstructs (List.filter nonempty (chunks a)) pre ->
  exists pre',
    reconstructs (List.filter nonempty (chunks (loop_body maxChunkLength a part))) pre' /\
    pre' ++ concat (parts (loop_body maxChunkLength a part)) = pre ++ concat (parts a) ++ part.
Proof.
  intros H. unfold loop_body. destruct (_ <=? _); simpl.
  - exists pre. split; [ exact H | ]. rewrite concat_app. simpl.
    rewrite app_nil_r. reflexivity.
  - exists (pre ++ concat (parts a)). split; [ apply flush_reconstructs; exact H | ].
    rewrite app_nil_r, <- app_assoc. reflexivity.
Qed.

Lemma loop_reconstructs maxChunkLength pieces :
  forall a pre,
    reconstructs (List.filter nonempty (chunks a)) pre ->
    let a' := fold_left (loop_body maxChunkLength) pieces a in
    reconstructs (List.filter nonempty (flush (chunks a') (parts a')))
                 (pre ++ concat (parts a) ++ concat pieces).
Proof.
  induction pieces as [|p ps IH]; intros a pre H; simpl.
  - rewrite app_nil_r. apply flush_reconstructs. exact H.
  - destruct (loop_body_reconstructs maxChunkLength a p pre H) as (pre' & H' & E).
    specialize (IH _ _ H'). simpl in IH.
    rewrite app_assoc, E, <- !app_assoc in IH. exact IH.
Qed.

Lemma boundary_pass_reconstructs text maxChunkLength :
  reconstructs (List.filter nonempty (boundary_pass text maxChunkLength)) text.
Proof.
  pose proof (loop_reconstructs maxChunkLength (split text) (Acc [] [] 0) []
                (rebuilt_end [] (List.Forall_nil _))) as H.
  simpl in H. rewrite split_concat in H. exact H.
Qed.

Lemma blank_invisible w : blank w -> List.filter visible w = [].
Proof.
  induction 1 as [|c w Hc _ IH]; simpl; [ reflexivity | ].
  unfold visible at 1. rewrite Hc. exact IH.
Qed.

(** Apart from whitespace, the units hold the characters of the text,
    each once and in order. *)
Lemma reconstructs_visible units text :
  reconstructs units text ->
  List.filter visible (concat units) = List.filter visible text.
Proof.
  induction 1 as [w Hw|w u us rest Hw _ IH]; simpl.
  - symmetry. apply blank_invisible. exact Hw.
  - rewrite !List.filter_app, IH, (blank_invisible w Hw). reflexivity.
Qed.

Lemma filter_nonempty_all (cs : list jsstring) : Forall (fun u => u <> []) (List.filter nonempty cs).
Proof.
  induction cs as [|c cs IH]; simpl; [ constructor | ].
  destruct c; simpl; [ exact IH | constructor; [ discriminate | exact IH ] ].
Qed.

(** C8: [smartChunkText] returns on every text; the text is the returned
    units in order with nothing but whitespace before, between and after
    them, so every character that is not whitespace (delimiters
    included) occurs in the units once and in place; no unit is empty;
    and the empty text gives the empty sequence. *)
Theorem smartChunkText_reconstructs (text : jsstring) (maxChunkLength : Z) :
  exists units,
    smartChunkText text maxChunkLength = Some units /\
    reconstructs units text /\
    List.filter visible (concat units) = List.filter visible text /\
    Forall (fun u => u <> []) units /\
    (text = [] -> units = []).
Proof.
  destruct text as [|c rest].
  - exists []. repeat split; auto. constructor. constructor.
  - exists (List.filter nonempty (boundary_pass (c :: rest) maxChunkLength)).
    pose proof (boundary_pass_reconstructs (c :: rest) maxChunkLength) as H.
    split; [ apply smartChunkText_boundary; discriminate | ].
    split; [ exact H | ].
    split; [ apply reconstructs_visible; exact H | ].
    split; [ apply filter_nonempty_all | discriminate ].
Qed.

End Reconstruction.

(* ================================================================== *)
(** * Promise.all *)
(* ================================================================== *)

Section PromiseAll.
Context {A : Type}.
Implicit Types ps : list (timed A).

Lemma first_rejection_sound ps t m :
  first_rejection ps = Some (t, m) ->
  exists p, In p ps /\ result p = Rejected m /\ instant p = t /\
            forall q, In q ps -> rejects q -> (t <= instant q)%nat.
Proof.
  revert t m. induction ps as [|p ps IH]; intros t m H; simpl in H; [ discriminate | ].
  destruct (result p) as [v|mp] eqn:Hp.
  - destruct (IH _ _ H) as (p' & Hin & Hr & Ht & Hmin).
    exists p'. repeat split; auto; [ right; exact Hin | ].
    intros q [<-|Hq] [mq Hrq]; [ congruence | apply Hmin; [ exact Hq | exists mq; exact Hrq ] ].
  - destruct (first_rejection ps) as [[t' m']|] eqn:Hrest.
    + destruct (IH _ _ eq_refl) as (p' & Hin & Hr & Ht & Hmin).
      destruct (instant p <=? t')%nat eqn:Hle; injection H as <- <-.
      * apply Nat.leb_le in Hle. exists p. repeat split; auto; [ left; reflexivity | ].
        intros q [<-|Hq] Hrq; [ lia | specialize (Hmin q Hq Hrq); lia ].
      * apply Nat.leb_gt in Hle. exists p'. repeat split; auto; [ right; exact Hin | ].
        intros q [<-|Hq] Hrq; [ lia | apply Hmin; assumption ].
    + injection H as <- <-. exists p. repeat split; auto; [ left; reflexivity | ].
      intros q [<-|Hq] [mq Hrq]; [ lia | ].
      exfalso. clear IH. induction ps as [|x xs IHx]; [ destruct Hq | ].
      simpl in Hrest. destruct Hq as [<-|Hq].
      * rewrite Hrq in Hrest. destruct (first_rejection xs) as [[? ?]|];
          [ destruct (_ <=? _)%nat | ]; discriminate.
      * destruct (result x); [ apply IHx; assumption | ].
        destruct (first_rejection xs) as [[? ?]|];
          [ destruct (_ <=? _)%nat | ]; discriminate.
Qed.

Lemma first_rejection_none ps :
  first_rejection ps = None <-> Forall (fun p => ~ rejects p) ps.
Proof.
  induction ps as [|p ps IH]; simpl.
  - split; [ constructor | reflexivity ].
  - destruct (result p) as [v|m] eqn:Hp.
    + rewrite IH. split.
      * intros H. constructor; [ intros [m Hm]; congruence | exact H ].
      * intros H. inversion H; assumption.
    + split.
      * destruct (first_rejection ps) as [[? ?]|];
          [ destruct (_ <=? _)%nat | ]; discriminate.
      * intros H. inversion H as [|? ? Hn _]. exfalso. apply Hn. exists m. exact Hp.
Qed.

(** [Promise.all] rejects exactly when one of its promises does, with
    the reason of the one that rejects first. *)
Lemma promise_all_rejected ps m :
  promise_all ps = Rejected m ->
  exists p, In p ps /\ result p = Rejected m /\
            forall q, In q ps -> rejects q -> (instant p <= instant q)%nat.
Proof.
  unfold promise_all. destruct (first_rejection ps) as [[t m']|] eqn:H; [ | discriminate ].
  intros [= <-]. destruct (first_rejection_sound _ _ _ H) as (p & ? & ? & <- & ?). eauto.
Qed.

Lemma promise_all_fulfilled ps vs :
  promise_all ps = Fulfilled vs ->
  Forall (fun p => ~ rejects p) ps /\ vs = values ps.
Proof.
  unfold promise_all. destruct (first_rejection ps) as [[t m']|] eqn:H; [ discriminate | ].
  intros [= <-]. split; [ apply first_rejection_none; exact H | reflexivity ].
Qed.

Lemma promise_all_of_fulfilled ps :
  Forall (fun p => ~ rejects p) ps -> promise_all ps = Fulfilled (values ps).
Proof.
  intros H. unfold promise_all. apply first_rejection_none in H. rewrite H. reflexivity.
Qed.

End PromiseAll.

(* ================================================================== *)
(** * The batch scheduler *)
(* ================================================================== *)

Section Scheduler.
Import Tts.
Variable env : Env.
Variable args : ttsArgs.
Variable chunks : list jsstring.

Local Abbreviation n := (length chunks).

(** Inside the list, [chunks.slice(i, i + size)] is the next [size]
    chunks (fewer at the end) and starts at position [i]. *)
Lemma slice_batch (i size : nat) :
  (i <= n)%nat ->
  slice chunks (Z.of_nat i) (Z.of_nat i + Z.of_nat size) = take size (drop i chunks).
Proof.
  intros Hi. unfold slice, relative.
  destruct (Z.ltb_spec (Z.of_nat i) 0); [ lia | ].
  destruct (Z.ltb_spec (Z.of_nat i + Z.of_nat size) 0); [ lia | ].
  rewrite (Z.min_l (Z.of_nat i)) by lia. rewrite Nat2Z.id.
  destruct (Nat.le_gt_cases size (n - i)) as [Hs|Hs].
  - rewrite Z.min_l by lia. f_equal. lia.
  - rewrite Z.min_r by lia.
    rewrite !firstn_all2; [ reflexivity | | ]; rewrite length_drop; lia.
Qed.

Lemma first_index_inside (i : nat) : (i <= n)%nat -> first_index chunks (Z.of_nat i) = i.
Proof.
  intros Hi. unfold first_index, relative.
  destruct (Z.ltb_spec (Z.of_nat i) 0); lia.
Qed.

Lemma batch_indices_inside (i size : nat) :
  (i <= n)%nat ->
  batch_indices chunks (Z.of_nat i) (Z.of_nat size) = seq i (Nat.min size (n - i)).
Proof.
  intros Hi. unfold batch_indices.
  rewrite slice_batch, first_index_inside, length_take, length_drop by assumption.
  reflexivity.
Qed.

Lemma audioPromises_inside (i size : nat) :
  (i <= n)%nat ->
  audioPromises env args chunks (Z.of_nat i) (Z.of_nat size) =
    imap (fun j chunk => getAudioChunk env args (i + j) chunk) (take size (drop i chunks)).
Proof.
  intros Hi. unfold audioPromises.
  rewrite slice_batch, first_index_inside by assumption. reflexivity.
Qed.

(** The units of the batch that starts at [i]. *)
Lemma batch_unit (i size j : nat) (text : jsstring) :
  take size (drop i chunks) !! j = Some text <->
  (j < size)%nat /\ chunks !! (i + j)%nat = Some text.
Proof.
  rewrite lookup_take_Some, lookup_drop. tauto.
Qed.

Lemma in_batch_promises (i size : nat) (p : timed Blob) :
  In p (imap (fun j chunk => getAudioChunk env args (i + j) chunk) (take size (drop i chunks))) <->
  exists j text, (j < size)%nat /\ chunks !! (i + j)%nat = Some text /\
                 p = getAudioChunk env args (i + j) text.
Proof.
  rewrite <- list_elem_of_In, elem_of_lookup_imap. split.
  - intros (j & text & -> & H). apply batch_unit in H. exists j, text. tauto.
  - intros (j & text & Hj & H & ->). exists j, text. split; [ reflexivity | ].
    apply batch_unit. tauto.
Qed.

Lemma failure_rejects k text :
  rejects (getAudioChunk env args k text) <-> failure env args k text <> None.
Proof.
  unfold rejects, failure. destruct (result _) as [b|m].
  - split; [ intros [? ?]; discriminate | congruence ].
  - split; [ discriminate | eauto ].
Qed.

Lemma failure_message k text m :
  result (getAudioChunk env args k text) = Rejected m <-> failure env args k text = Some m.
Proof. unfold failure. destruct (result _); split; congruence. Qed.

Lemma values_batch (l : list jsstring) :
  forall i,
    (forall j text, l !! j = Some text -> failure env args (i + j) text = None) ->
    values (imap (fun j chunk => getAudioChunk env args (i + j) chunk) l) =
    imap (fun j chunk => audio env args (i + j) chunk) l.
Proof.
  induction l as [|c l IH]; intros i H; [ reflexivity | ].
  rewrite !imap_cons. cbn [values].
  assert (result (getAudioChunk env args (i + 0) c) = Fulfilled (audio env args (i + 0) c)) as ->.
  { specialize (H 0%nat c eq_refl). unfold failure in H. unfold audio.
    destruct (result _); congruence. }
  f_equal.
  rewrite (imap_ext _ (fun j chunk => getAudioChunk env args (S i + j) chunk) l)
    by (intros; simpl; f_equal; lia).
  rewrite (imap_ext (_ ∘ S) (fun j chunk => audio env args (S i + j) chunk) l)
    by (intros; simpl; f_equal; lia).
  apply IH. intros j text Hj. replace (S i + j)%nat with (i + S j)%nat by lia.
  apply H. exact Hj.
Qed.

(** A batch whose units all succeed gives their audio in submission
    order, whatever the instants at which the calls settle. *)
Lemma batch_fulfilled (i size : nat) :
  (forall j text, (j < size)%nat -> chunks !! (i + j)%nat = Some text ->
                  failure env args (i + j) text = None) ->
  promise_all (imap (fun j chunk => getAudioChunk env args (i + j) chunk)
                    (take size (drop i chunks))) =
  Fulfilled (imap (fun j chunk => audio env args (i + j) chunk) (take size (drop i chunks))).
Proof.
  intros H. rewrite promise_all_of_fulfilled.
  - f_equal. apply values_batch. intros j text Hj. apply batch_unit in Hj. apply H; tauto.
  - apply List.Forall_forall. intros p Hp. apply in_batch_promises in Hp.
    destruct Hp as (j & text & Hj & Hl & ->). rewrite failure_rejects.
    rewrite (H j text Hj Hl). congruence.
Qed.

Lemma audio_split (i size : nat) :
  imap (fun j chunk => audio env args (i + j) chunk) (drop i chunks) =
  imap (fun j chunk => audio env args (i + j) chunk) (take size (drop i chunks)) ++
  imap (fun j chunk => audio env args (i + size + j) chunk) (drop (i + size) chunks).
Proof.
  rewrite <- (take_drop size (drop i chunks)) at 1.
  rewrite imap_app. f_equal. rewrite drop_drop.
  apply imap_ext. intros j text Hj. simpl.
  rewrite length_take, length_drop.
  rewrite lookup_drop in Hj. apply lookup_lt_Some in Hj.
  f_equal. lia.
Qed.

End Scheduler.

Section Batches.
Import Tts.

(** The batches cover the positions from [start] on, in order and
    without repetition. *)
Lemma partition_from_concat (n size : nat) :
  (1 <= size)%nat ->
  forall fuel start, (n - start <= fuel)%nat ->
    concat (partition_from fuel start n size) = seq start (n - start).
Proof.
  intros Hs. induction fuel as [|fuel IH]; intros start Hf; cbn [partition_from].
  - replace (n - start)%nat with 0%nat by lia. reflexivity.
  - destruct (Nat.ltb_spec start n) as [Hlt|Hge].
    + rewrite concat_cons, IH by lia.
      destruct (Nat.le_gt_cases size (n - start)) as [Hle|Hgt].
      * rewrite Nat.min_l by lia. rewrite <- seq_app. f_equal. lia.
      * rewrite Nat.min_r by lia.
        replace (n - (start + size))%nat with 0%nat by lia.
        simpl. rewrite app_nil_r. reflexivity.
    + replace (n - start)%nat with 0%nat by lia. reflexivity.
Qed.

Lemma consecutive_batches_cover (n size : nat) :
  (1 <= size)%nat -> concat (consecutive_batches n size) = seq 0 n.
Proof.
  intros Hs. unfold consecutive_batches.
  rewrite partition_from_concat by lia. f_equal. lia.
Qed.

(** Every batch has between one and [size] units. *)
Lemma partition_from_sizes (n size : nat) :
  (1 <= size)%nat ->
  forall fuel start,
    Forall (fun b => (1 <= length b <= size)%nat) (partition_from fuel start n size).
Proof.
  intros Hs. induction fuel as [|fuel IH]; intros start; cbn [partition_from];
    [ constructor | ].
  destruct (Nat.ltb_spec start n) as [Hlt|Hge]; [ | constructor ].
  constructor; [ rewrite length_seq; lia | apply IH ].
Qed.

End Batches.

Section Loops.
Import Tts.
Variable env : Env.
Variable args : ttsArgs.
Variable chunks : list jsstring.
Variable size : nat.
Hypothesis size_pos : (1 <= size)%nat.

Local Abbreviation n := (length chunks).
Local Abbreviation batch := (batch_promises env args chunks size).
Local Abbreviation positions := (Tts.positions chunks size).

(** The two equations of the loop of [getVoice]. *)
Lemma getVoice_loop_exit fuel i acc started :
  (n <= i)%nat ->
  getVoice_loop env args fuel chunks (Z.of_nat size) (Z.of_nat i) acc started =
    Some (Fulfilled acc, started).
Proof.
  intros Hi. destruct fuel; simpl;
    destruct (Z.ltb_spec (Z.of_nat i) (Z.of_nat n)); try lia; reflexivity.
Qed.

Lemma getVoice_loop_step fuel i acc started :
  (i < n)%nat ->
  getVoice_loop env args (S fuel) chunks (Z.of_nat size) (Z.of_nat i) acc started =
    match promise_all (batch i) with
    | Rejected m => Some (Rejected m, started ++ [positions i])
    | Fulfilled audioBlobs =>
        getVoice_loop env args fuel chunks (Z.of_nat size) (Z.of_nat (i + size))
          (acc ++ audioBlobs) (started ++ [positions i])
    end.
Proof.
  intros Hi. cbn [getVoice_loop].
  destruct (Z.ltb_spec (Z.of_nat i) (Z.of_nat n)); [ | lia ].
  rewrite audioPromises_inside, batch_indices_inside by lia.
  rewrite Nat2Z.inj_add. reflexivity.
Qed.

(** The same two equations for the loop of [pipeChunksToStream]. *)
Lemma pipe_loop_exit fuel i ops started :
  (n <= i)%nat ->
  pipe_loop env args fuel chunks (Z.of_nat size) (Z.of_nat i) ops started =
    Some (Fulfilled tt, ops, started).
Proof.
  intros Hi. destruct fuel; simpl;
    destruct (Z.ltb_spec (Z.of_nat i) (Z.of_nat n)); try lia; reflexivity.
Qed.

Lemma pipe_loop_step fuel i ops started :
  (i < n)%nat ->
  pipe_loop env args (S fuel) chunks (Z.of_nat size) (Z.of_nat i) ops started =
    match promise_all (batch i) with
    | Rejected m => Some (Rejected m, ops, started ++ [positions i])
    | Fulfilled audioBlobs =>
        pipe_loop env args fuel chunks (Z.of_nat size) (Z.of_nat (i + size))
          (ops ++ map Write audioBlobs) (started ++ [positions i])
    end.
Proof.
  intros Hi. cbn [pipe_loop].
  destruct (Z.ltb_spec (Z.of_nat i) (Z.of_nat n)); [ | lia ].
  rewrite audioPromises_inside, batch_indices_inside by lia.
  rewrite Nat2Z.inj_add. reflexivity.
Qed.

(** Streaming drives the batches exactly as the buffered mode does, and
    writes what the buffered mode collects. *)
Lemma pipe_loop_follows_getVoice_loop fuel :
  forall i acc started,
    (n - i <= fuel)%nat ->
    match getVoice_loop env args fuel chunks (Z.of_nat size) (Z.of_nat i) acc started with
    | None => False
    | Some (Fulfilled all, st) =>
        pipe_loop env args fuel chunks (Z.of_nat size) (Z.of_nat i) (map Write acc) started =
          Some (Fulfilled tt, map Write all, st)
    | Some (Rejected m, st) =>
        exists done,
          pipe_loop env args fuel chunks (Z.of_nat size) (Z.of_nat i) (map Write acc) started =
            Some (Rejected m, map Write (acc ++ done), st)
    end.
Proof.
  induction fuel as [|fuel IH]; intros i acc started Hf.
  - rewrite getVoice_loop_exit, pipe_loop_exit by lia. reflexivity.
  - destruct (Nat.lt_ge_cases i n) as [Hi|Hi].
    + rewrite getVoice_loop_step, pipe_loop_step by assumption.
      destruct (promise_all (batch i)) as [blobs|m].
      * specialize (IH (i + size)%nat (acc ++ blobs) (started ++ [positions i]) ltac:(lia)).
        rewrite map_app in IH.
        destruct (getVoice_loop _ _ _ _ _ _ _ _) as [[[all|m] st]|]; [ exact IH | | exact IH ].
        destruct IH as [done IH]. exists (blobs ++ done). rewrite IH, app_assoc. reflexivity.
      * exists []. rewrite app_nil_r. reflexivity.
    + rewrite getVoice_loop_exit, pipe_loop_exit by lia. reflexivity.
Qed.

(** When no unit fails, the loop runs through every batch and collects
    the audio of the units in the order of the chunk list. *)
Lemma getVoice_loop_all_fulfilled :
  (forall k text, chunks !! k = Some text -> failure env args k text = None) ->
  forall fuel i acc started,
    (n - i <= fuel)%nat ->
    getVoice_loop env args fuel chunks (Z.of_nat size) (Z.of_nat i) acc started =
      Some (Fulfilled (acc ++ imap (fun j chunk => audio env args (i + j) chunk) (drop i chunks)),
            started ++ partition_from fuel i n size).
Proof.
  intros Hok. induction fuel as [|fuel IH]; intros i acc started Hf.
  - rewrite getVoice_loop_exit by lia.
    rewrite drop_ge by lia. simpl. rewrite !app_nil_r. reflexivity.
  - destruct (Nat.lt_ge_cases i n) as [Hi|Hi].
    + rewrite getVoice_loop_step by assumption. unfold batch.
      rewrite batch_fulfilled by (intros; apply Hok; assumption).
      rewrite IH by lia. cbn [partition_from].
      destruct (Nat.ltb_spec i n); [ | lia ].
      rewrite (audio_split env args chunks i size), <- !app_assoc. reflexivity.
    + rewrite getVoice_loop_exit by lia.
      rewrite drop_ge by lia. cbn [partition_from].
      destruct (Nat.ltb_spec i n); [ lia | ]. simpl. rewrite !app_nil_r. reflexivity.
Qed.

End Loops.

Section FailFast.
Import Tts.
Variable env : Env.
Variable args : ttsArgs.
Variable chunks : list jsstring.
Variable size : nat.
Hypothesis size_pos : (1 <= size)%nat.

Local Abbreviation n := (length chunks).
Local Abbreviation positions := (Tts.positions chunks size).

Lemma in_positions i k : In k (positions i) <-> (i <= k < i + size)%nat /\ (k < n)%nat.
Proof. unfold Tts.positions. rewrite in_seq. lia. Qed.

Lemma batch_rejected i m :
  (i < n)%nat ->
  promise_all (imap (fun j chunk => getAudioChunk env args (i + j) chunk)
                    (take size (drop i chunks))) = Rejected m ->
  exists j, first_to_fail env args chunks (positions i) j m.
Proof.
  intros Hi H. apply promise_all_rejected in H. destruct H as (p & Hp & Hm & Hmin).
  apply in_batch_promises in Hp. destruct Hp as (j & text & Hj & Hl & ->).
  exists (i + j)%nat. split; [ | split ].
  - apply in_positions. apply lookup_lt_Some in Hl. lia.
  - exists text. split; [ exact Hl | apply failure_message; exact Hm ].
  - intros j' text' Hin Hl' Hf. apply in_positions in Hin.
    specialize (Hmin (getAudioChunk env args j' text')). simpl in Hmin. apply Hmin.
    + apply in_batch_promises. exists (j' - i)%nat, text'.
      replace (i + (j' - i))%nat with j' by lia. repeat split; [ lia | exact Hl' ].
    + apply failure_rejects. exact Hf.
Qed.

Lemma batch_fulfilled_units i blobs k text :
  promise_all (imap (fun j chunk => getAudioChunk env args (i + j) chunk)
                    (take size (drop i chunks))) = Fulfilled blobs ->
  (i <= k < i + size)%nat -> chunks !! k = Some text ->
  failure env args k text = None.
Proof.
  intros H Hk Hl. apply promise_all_fulfilled in H. destruct H as [H _].
  rewrite List.Forall_forall in H.
  specialize (H (getAudioChunk env args k text)).
  destruct (failure env args k text) as [m|] eqn:Hf; [ | reflexivity ].
  exfalso. apply H.
  - apply in_batch_promises. exists (k - i)%nat, text.
    replace (i + (k - i))%nat with k by lia. repeat split; [ lia | exact Hl ].
  - apply failure_rejects. congruence.
Qed.

(** If a unit at or after position [i] fails, the loop stops at the
    first batch holding a failing unit: it returns the error of the
    first unit of that batch to fail, has started the batches up to it
    and none after, and every unit of the earlier batches succeeded. *)
Lemma getVoice_loop_fails fuel :
  forall i acc started,
    (n - i <= fuel)%nat ->
    (exists k text, (i <= k)%nat /\ chunks !! k = Some text /\ failure env args k text <> None) ->
    exists m done i' later j,
      getVoice_loop env args fuel chunks (Z.of_nat size) (Z.of_nat i) acc started =
        Some (Rejected m, started ++ done ++ [positions i']) /\
      partition_from fuel i n size = done ++ [positions i'] ++ later /\
      (i <= i' < n)%nat /\
      (forall k text, (i <= k < i')%nat -> chunks !! k = Some text ->
                      failure env args k text = None) /\
      (forall k, In k (concat done) -> (i <= k < i')%nat) /\
      first_to_fail env args chunks (positions i') j m.
Proof.
  induction fuel as [|fuel IH]; intros i acc started Hf (k & text & Hk & Hl & Hfail);
    pose proof (lookup_lt_Some _ _ _ Hl) as Hkn; [ lia | ].
  assert (Hi : (i < n)%nat) by lia.
  rewrite getVoice_loop_step by assumption.
  cbn [partition_from]. destruct (Nat.ltb_spec i n); [ | lia ].
  change (seq i (Nat.min size (n - i))) with (positions i).
  destruct (promise_all _) as [blobs|m] eqn:Hall.
  - assert (Hk' : (i + size <= k)%nat).
    { destruct (Nat.le_gt_cases (i + size) k) as [?|Hlt]; [ assumption | ].
      exfalso. apply Hfail. eapply batch_fulfilled_units; [ exact Hall | lia | exact Hl ]. }
    destruct (IH (i + size)%nat (acc ++ blobs) (started ++ [positions i]) ltac:(lia))
      as (m & done & i' & later & j & Hrun & Hpart & Hi' & Hbefore & Hdone & Hfirst).
    { exists k, text. auto. }
    exists m, (positions i :: done), i', later, j.
    split; [ rewrite Hrun, <- !app_assoc; reflexivity | ].
    split; [ rewrite Hpart; reflexivity | ].
    split; [ lia | ].
    split; [ | split; [ | exact Hfirst ] ].
    + intros k0 text0 Hk0 Hl0.
      destruct (Nat.le_gt_cases (i + size) k0).
      * apply Hbefore; [ lia | exact Hl0 ].
      * eapply batch_fulfilled_units; [ exact Hall | lia | exact Hl0 ].
    + intros k0 Hk0. rewrite concat_cons in Hk0. apply in_app_or in Hk0.
      destruct Hk0 as [Hk0|Hk0]; [ apply in_positions in Hk0; lia | ].
      specialize (Hdone k0 Hk0). lia.
  - destruct (batch_rejected i m Hi Hall) as [j Hfirst].
    exists m, [], i, (partition_from fuel (i + size) n size), j.
    split; [ reflexivity | ].
    split; [ reflexivity | ].
    split; [ lia | ].
    split; [ intros k0 text0 Hk0; lia | ].
    split; [ intros k0 [] | exact Hfirst ].
Qed.

End FailFast.

(* ================================================================== *)
(** * Ordering and failure of a request *)
(* ================================================================== *)

Section Requests.
Import Tts.
Variable env : Env.
Variable args : ttsArgs.

Lemma optimalConcurrency_pos (concurrency : Z) (n : nat) :
  1 <= concurrency -> (1 <= n)%nat -> 1 <= optimalConcurrency concurrency n.
Proof. intros Hc Hn. unfold optimalConcurrency. lia. Qed.

Lemma written_writes (blobs : list Blob) (tail : list writer_op) :
  written (map Write blobs ++ tail) = blobs ++ written tail.
Proof. induction blobs as [|b blobs IH]; simpl; [ reflexivity | ]. f_equal. exact IH. Qed.

(** C6: when every unit is synthesised, then whatever the instants at
    which the calls settle, both modes deliver the audio of the units in
    the order of the chunk list: the buffered body is their
    concatenation, the stream receives one write per unit in that order
    and is then closed; the calls are started batch after batch, the
    batches being the consecutive runs of [size] positions (the
    effective concurrency), the last one possibly shorter. *)
Theorem output_order_matches_input (chunks : list jsstring) (concurrency : Z) :
  1 <= concurrency ->
  (forall k text, chunks !! k = Some text -> failure env args k text = None) ->
  let size := Z.to_nat (optimalConcurrency concurrency (length chunks)) in
  let audios := imap (audio env args) chunks in
  getVoice env args chunks concurrency =
    Some ({| status := 200; contentType := "audio/mpeg"; payload := Audio (concat audios) |},
          consecutive_batches (length chunks) size) /\
  pipeChunksToStream env args chunks concurrency =
    Some {| outcome := Fulfilled tt; writer := map Write audios ++ [Close];
            batches := consecutive_batches (length chunks) size |} /\
  streamVoice env args chunks concurrency =
    Some {| status := 200; contentType := "audio/mpeg"; payload := Readable audios |} /\
  concat (consecutive_batches (length chunks) size) = seq 0 (length chunks) /\
  Forall (fun b => (1 <= length b <= size)%nat) (consecutive_batches (length chunks) size).
Proof.
  intros Hc Hok size audios.
  destruct (Nat.eq_dec (length chunks) 0%nat) as [Hz|Hz].
  { destruct chunks; [ | discriminate ]. repeat split; constructor. }
  assert (Hn : (1 <= length chunks)%nat) by lia.
  pose proof (optimalConcurrency_pos concurrency (length chunks) Hc Hn) as Hpos.
  assert (Hsize : (1 <= size)%nat) by (subst size; lia).
  assert (Hoc : optimalConcurrency concurrency (length chunks) = Z.of_nat size)
    by (subst size; lia).
  pose proof (getVoice_loop_all_fulfilled env args chunks size Hsize Hok
                (length chunks) 0%nat [] [] ltac:(lia)) as Hrun.
  change (imap (fun j chunk => audio env args (0 + j) chunk) (drop 0 chunks))
    with audios in Hrun.
  simpl app in Hrun. fold (consecutive_batches (length chunks) size) in Hrun.
  pose proof (pipe_loop_follows_getVoice_loop env args chunks size Hsize
                (length chunks) 0%nat [] [] ltac:(lia)) as Hpipe.
  rewrite Hrun in Hpipe. simpl map in Hpipe.
  assert (Hp : pipeChunksToStream env args chunks concurrency =
               Some {| outcome := Fulfilled tt; writer := map Write audios ++ [Close];
                       batches := consecutive_batches (length chunks) size |}).
  { unfold pipeChunksToStream. rewrite Hoc. change 0 with (Z.of_nat 0).
    rewrite Hpipe. reflexivity. }
  split; [ | split; [ exact Hp | split; [ | split ] ] ].
  - unfold getVoice. rewrite Hoc. change 0 with (Z.of_nat 0). rewrite Hrun. reflexivity.
  - unfold streamVoice. rewrite Hp. simpl. rewrite written_writes. simpl.
    rewrite app_nil_r. reflexivity.
  - apply consecutive_batches_cover. exact Hsize.
  - apply partition_from_sizes. exact Hsize.
Qed.

(** C2: if the call of some unit fails, [getVoice] (for a requested
    concurrency of one or more) answers with a 500 error and no audio.
    The message carries the error of the unit that ended the run: the
    first unit to fail in the first batch that holds a failing unit,
    hence the failing unit itself when it is the only one.  The batches
    started are those of the partition up to that batch, none after it,
    every unit before it succeeded, and no unit is requested twice. *)
Theorem getVoice_fails_fast (chunks : list jsstring) (concurrency : Z)
    (k : nat) (text : jsstring) (m : string) :
  1 <= concurrency ->
  chunks !! k = Some text ->
  failure env args k text = Some m ->
  let size := Z.to_nat (optimalConcurrency concurrency (length chunks)) in
  exists m' started failing later j,
    getVoice env args chunks concurrency =
      Some (errorResponse ("非流式 TTS 失败: " ++ m')%string 500 "tts_generation_error",
            started ++ [failing]) /\
    consecutive_batches (length chunks) size = started ++ [failing] ++ later /\
    first_to_fail env args chunks failing j m' /\
    (forall k' text', In k' (concat started) -> chunks !! k' = Some text' ->
                      failure env args k' text' = None) /\
    NoDup (concat (started ++ [failing])) /\
    ((forall k' text', chunks !! k' = Some text' -> k' <> k ->
                       failure env args k' text' = None) -> j = k /\ m' = m).
Proof.
  intros Hc Hl Hfail size.
  pose proof (lookup_lt_Some _ _ _ Hl) as Hk.
  assert (Hn : (1 <= length chunks)%nat) by lia.
  pose proof (optimalConcurrency_pos concurrency (length chunks) Hc Hn) as Hpos.
  assert (Hsize : (1 <= size)%nat) by (subst size; lia).
  assert (Hoc : optimalConcurrency concurrency (length chunks) = Z.of_nat size)
    by (subst size; lia).
  destruct (getVoice_loop_fails env args chunks size Hsize (length chunks) 0%nat [] []
              ltac:(lia))
    as (m' & done & i' & later & j & Hrun & Hpart & Hi' & Hbefore & Hdone & Hfirst).
  { exists k, text. repeat split; [ lia | exact Hl | congruence ]. }
  exists m', done, (seq i' (Nat.min size (length chunks - i'))), later, j.
  split; [ | split; [ exact Hpart | split; [ exact Hfirst | split; [ | split ] ] ] ].
  - unfold getVoice. rewrite Hoc. change 0 with (Z.of_nat 0). rewrite Hrun. reflexivity.
  - intros k' text' Hin Hl'. apply (Hbefore k' text'); [ apply Hdone; exact Hin | exact Hl' ].
  - pose proof (consecutive_batches_cover (length chunks) size Hsize) as Hcover.
    unfold consecutive_batches in Hcover. rewrite Hpart in Hcover.
    pose proof (NoDup_seq 0 (length chunks)) as Hnd. rewrite <- Hcover in Hnd.
    rewrite app_assoc, concat_app in Hnd. apply NoDup_app in Hnd. apply Hnd.
  - intros Honly. destruct Hfirst as (_ & (textj & Hlj & Hfj) & _).
    destruct (Nat.eq_dec j k) as [->|Hne].
    + split; [ reflexivity | ]. congruence.
    + rewrite (Honly j textj Hlj Hne) in Hfj. discriminate.
Qed.

End Requests.

Lemma all_ok_never_fails k text : Tts.failure Examples.all_ok Examples.args k text = None.
Proof. reflexivity. Qed.

Lemma refuses_only bad k text :
  k <> bad -> Tts.failure (Examples.refuses bad) Examples.args k text = None.
Proof.
  intros Hne. unfold Tts.failure, Tts.getAudioChunk. simpl.
  destruct (Nat.eqb_spec k bad); [ contradiction | reflexivity ].
Qed.

Lemma output_order_matches_input_witness :
  1 <= 3 /\
  (forall k text, Examples.seven !! k = Some text ->
                  Tts.failure Examples.all_ok Examples.args k text = None) /\
  Tts.pipeChunksToStream Examples.all_ok Examples.args Examples.seven 3 =
    Some {| Tts.outcome := Fulfilled tt;
            Tts.writer :=
              [Tts.Write (0 :: lit "a"); Tts.Write (1 :: lit "b"); Tts.Write (2 :: lit "c");
               Tts.Write (3 :: lit "d"); Tts.Write (4 :: lit "e"); Tts.Write (5 :: lit "f");
               Tts.Write (6 :: lit "g"); Tts.Close]%N;
            Tts.batches := [[0; 1; 2]; [3; 4; 5]; [6]]%nat |}.
Proof.
  split; [ lia | ].
  split; [ intros k text _; apply all_ok_never_fails | ].
  exact (proj1 (proj2 (output_order_matches_input Examples.all_ok Examples.args
                         Examples.seven 3 ltac:(lia)
                         (fun k text _ => all_ok_never_fails k text)))).
Defined.

(** The specification's example: seven units with an effective
    concurrency of three go out as [0,1,2], [3,4,5], [6]. *)
Lemma seven_units_three_at_a_time :
  Tts.optimalConcurrency 3 7 = 3 /\
  Tts.consecutive_batches 7 3 = [[0; 1; 2]; [3; 4; 5]; [6]]%nat.
Proof. split; reflexivity. Qed.

Lemma getVoice_fails_fast_witness :
  1 <= 3 /\
  Examples.seven !! 4%nat = Some (lit "e") /\
  Tts.failure (Examples.refuses 4) Examples.args 4 (lit "e") =
    Some "Edge TTS API 错误: 429 Too Many Requests - slow down"%string /\
  exists started failing,
    Tts.getVoice (Examples.refuses 4) Examples.args Examples.seven 3 =
      Some (Tts.errorResponse
              "非流式 TTS 失败: Edge TTS API 错误: 429 Too Many Requests - slow down"
              500 "tts_generation_error",
            started ++ [failing]).
Proof.
  split; [ lia | ]. split; [ reflexivity | ]. split; [ reflexivity | ].
  destruct (getVoice_fails_fast (Examples.refuses 4) Examples.args Examples.seven 3
              4 (lit "e") _ ltac:(lia) eq_refl eq_refl)
    as (m' & started & failing & later & j & Hrun & _ & _ & _ & _ & Honly).
  exists started, failing.
  destruct Honly as [_ ->]; [ | exact Hrun ].
  intros k' text' _ Hne. apply refuses_only. exact Hne.
Defined.

(* ================================================================== *)
(** * The token cache under concurrent callers *)
(* ================================================================== *)

Section TokenCache.
Import Auth.

Lemma initial_consistent : consistent initial.
Proof. intros q st H. destruct q; discriminate. Qed.

Lemma lookup_pending_insert (l : list promise) p q res st :
  <[p := Settled res]> l !! q = Some (Pending st) -> l !! q = Some (Pending st) /\ q <> p.
Proof.
  intros H. destruct (Nat.eq_dec p q) as [->|Hne].
  - destruct (Nat.lt_ge_cases q (length l)) as [Hlt|Hge].
    + rewrite list_lookup_insert_eq in H by exact Hlt. discriminate.
    + rewrite list_insert_ge in H by exact Hge.
      apply lookup_lt_Some in H. lia.
  - rewrite list_lookup_insert_ne in H by exact Hne. auto.
Qed.

(** A refresh that ends leaves nothing pending, whatever it installs. *)
Lemma finish_consistent p res ti s :
  consistent s -> (exists st, promises s !! p = Some (Pending st)) ->
  consistent (finish p res ti s).
Proof.
  unfold consistent. intros Hc [st Hp].
  destruct (tokenRefreshing s), (tokenRefreshPromise s) as [p0|]; try contradiction.
  - destruct Hc as [_ Hu]. simpl. intros q st' Hq.
    apply lookup_pending_insert in Hq. destruct Hq as [Hq Hne].
    apply Hne. rewrite (Hu _ _ Hq), (Hu _ _ Hp). reflexivity.
  - exfalso. exact (Hc _ _ Hp).
Qed.

Lemma step_consistent s e s' out :
  consistent s -> is_clear e = false -> step s e = Some (s', out) -> consistent s'.
Proof.
  intros Hc Hnc H. destruct e as [now|p sg|p rp|]; simpl in H; [ | | | discriminate ].
  - unfold getEndpoint in H. destruct (token_valid now (tokenInfo s)).
    { injection H as <- _. exact Hc. }
    unfold consistent in Hc.
    destruct (tokenRefreshing s) eqn:Hr, (tokenRefreshPromise s) as [p0|] eqn:Hp;
      try contradiction.
    + injection H as <- _. unfold consistent. rewrite Hr, Hp. exact Hc.
    + injection H as <- _. unfold consistent. simpl. split.
      * exists Signing. rewrite lookup_app_r by lia. rewrite Nat.sub_diag. reflexivity.
      * intros q st Hq. destruct (Nat.lt_ge_cases q (length (promises s))) as [Hlt|Hge].
        -- rewrite lookup_app_l in Hq by exact Hlt. exfalso. exact (Hc _ _ Hq).
        -- apply lookup_lt_Some in Hq. rewrite length_app in Hq. simpl in Hq. lia.
  - destruct (promises s !! p) as [[[|]|]|] eqn:Hp; try discriminate.
    injection H as <- _. destruct sg as [sig|m]; simpl.
    + unfold consistent in *. simpl.
      destruct (tokenRefreshing s), (tokenRefreshPromise s) as [p0|]; try contradiction.
      * destruct Hc as [_ Hu]. pose proof (Hu _ _ Hp) as ->.
        pose proof (lookup_lt_Some _ _ _ Hp) as Hlt. split.
        -- exists Fetching. apply list_lookup_insert_eq. exact Hlt.
        -- intros q st Hq. destruct (Nat.eq_dec p0 q) as [->|Hne]; [ reflexivity | ].
           rewrite list_lookup_insert_ne in Hq by exact Hne. eapply Hu. exact Hq.
      * exfalso. exact (Hc _ _ Hp).
    + apply finish_consistent; eauto.
  - destruct (promises s !! p) as [[[|]|]|] eqn:Hp; try discriminate.
    injection H as <- _. apply finish_consistent; eauto.
Qed.

Lemma run_consistent es :
  forall s s' outs,
    consistent s -> forallb (fun e => negb (is_clear e)) es = true ->
    run s es = Some (s', outs) -> consistent s'.
Proof.
  induction es as [|e es IH]; intros s s' outs Hc Hnc H; simpl in H.
  - injection H as <- _. exact Hc.
  - simpl in Hnc. apply andb_true_iff in Hnc. destruct Hnc as [He Hnc].
    destruct (step s e) as [[s1 out]|] eqn:Hs; [ | discriminate ].
    destruct (run s1 es) as [[s2 outs']|] eqn:Hr; [ | discriminate ].
    injection H as <- _. eapply IH; [ | exact Hnc | exact Hr ].
    eapply step_consistent; [ exact Hc | | exact Hs ].
    apply negb_true_iff. exact He.
Qed.

(** Without [clearTokenCache], flags and promises always agree. *)
Lemma reachable_consistent s : reachable s -> consistent s.
Proof.
  intros (es & outs & Hnc & H). eapply run_consistent; [ apply initial_consistent | exact Hnc | exact H ].
Qed.

Lemma no_pending_filter (l : list promise) :
  (forall q st, l !! q <> Some (Pending st)) -> List.filter pending l = [].
Proof.
  induction l as [|x l IH]; intros H; [ reflexivity | ]. simpl.
  destruct x as [st|res]; simpl.
  - exfalso. exact (H 0%nat st eq_refl).
  - apply IH. intros q st. exact (H (S q) st).
Qed.

Lemma one_pending_filter (l : list promise) :
  (forall p q st st', l !! p = Some (Pending st) -> l !! q = Some (Pending st') -> p = q) ->
  (length (List.filter pending l) <= 1)%nat.
Proof.
  induction l as [|x l IH]; intros H; simpl; [ lia | ].
  destruct x as [st|res]; simpl.
  - rewrite no_pending_filter; [ simpl; lia | ].
    intros q st' Hq. specialize (H 0%nat (S q) st st' eq_refl Hq). discriminate.
  - apply IH. intros p q st st' Hp Hq.
    specialize (H (S p) (S q) st st' Hp Hq). lia.
Qed.

(** Two refreshes never overlap. *)
Lemma consistent_in_flight s : consistent s -> (in_flight s <= 1)%nat.
Proof.
  unfold consistent, in_flight. intros Hc.
  destruct (tokenRefreshing s), (tokenRefreshPromise s) as [p0|]; try contradiction.
  - destruct Hc as [_ Hu]. apply one_pending_filter.
    intros p q st st' Hp Hq. rewrite (Hu _ _ Hp), (Hu _ _ Hq). reflexivity.
  - rewrite no_pending_filter by exact Hc. simpl. lia.
Qed.

Lemma quiescent_in_flight s :
  consistent s -> tokenRefreshing s = false -> in_flight s = 0%nat.
Proof.
  unfold consistent, in_flight. intros Hc Hr. rewrite Hr in Hc.
  destruct (tokenRefreshPromise s); [ contradiction | ].
  rewrite no_pending_filter by exact Hc. reflexivity.
Qed.

End TokenCache.

Section Singleflight.
Import Auth.

Lemma token_valid_later now now' ti :
  token_valid now ti = false -> now <= now' -> token_valid now' ti = false.
Proof.
  unfold token_valid. intros H Hle.
  destruct (truthy_string (token ti) && truthy_number (expiredAt ti)); [ | reflexivity ].
  destruct (expiredAt ti) as [e|]; [ | reflexivity ]. simpl in *.
  apply Z.ltb_ge in H. apply Z.ltb_ge. lia.
Qed.

Lemma getEndpoint_joins now s p :
  token_valid now (tokenInfo s) = false ->
  tokenRefreshing s = true -> tokenRefreshPromise s = Some p ->
  getEndpoint now s = (s, Follows p).
Proof. intros Hv Hr Hp. unfold getEndpoint. rewrite Hv, Hr, Hp. reflexivity. Qed.

Lemma getEndpoint_begins now s :
  token_valid now (tokenInfo s) = false -> tokenRefreshing s = false ->
  getEndpoint now s = (begun s, Follows (length (promises s))).
Proof.
  intros Hv Hr. unfold getEndpoint. rewrite Hv, Hr.
  destruct (tokenRefreshPromise s); reflexivity.
Qed.

(** While the refresh [p] is in flight, every caller is handed its
    promise, and the only other thing that can happen is the signature
    arriving, once. *)
Lemma refreshing_run es :
  forall s s1 outs p,
    consistent s -> tokenRefreshing s = true -> tokenRefreshPromise s = Some p ->
    forallb (joins (tokenInfo s)) es = true ->
    run s es = Some (s1, outs) ->
    outs = repeat (Follows p) (length (call_times es)) /\
    s1 = (if existsb is_signed es then sent p s else s) /\
    (existsb is_signed es = true -> promises s !! p = Some (Pending Signing)).
Proof.
  induction es as [|e es IH]; intros s s1 outs p Hc Hr Hp Hj H.
  - injection H as <- <-. repeat split. discriminate.
  - cbn [forallb] in Hj. apply andb_true_iff in Hj. destruct Hj as [He Hj].
    cbn [run] in H.
    destruct (step s e) as [[s' out]|] eqn:Hs; [ | discriminate ].
    destruct (run s' es) as [[s2 outs']|] eqn:Hrun; [ | discriminate ].
    injection H as <- <-.
    destruct e as [now|q [sg|m]|q rp|]; simpl in He; try discriminate.
    + apply negb_true_iff in He. simpl in Hs.
      rewrite (getEndpoint_joins now s p He Hr Hp) in Hs. injection Hs as <- <-.
      destruct (IH s s2 outs' p Hc Hr Hp Hj Hrun) as (-> & -> & Hsig).
      repeat split. exact Hsig.
    + pose proof (step_consistent s (SignSettled q (Fulfilled sg)) s' out Hc eq_refl Hs) as Hc'.
      simpl in Hs. destruct (promises s !! q) as [[[|]|]|] eqn:Hq; try discriminate.
      injection Hs as <- <-.
      assert (q = p) as ->.
      { unfold consistent in Hc. rewrite Hr, Hp in Hc. destruct Hc as [_ Hu]. eapply Hu. exact Hq. }
      change (resume_sign p (Fulfilled sg) s) with (sent p s) in *.
      destruct (IH (sent p s) s2 outs' p Hc' Hr Hp Hj Hrun) as (-> & -> & Hsig).
      assert (Hno : existsb is_signed es = false).
      { destruct (existsb is_signed es); [ | reflexivity ].
        specialize (Hsig eq_refl). simpl in Hsig.
        rewrite list_lookup_insert_eq in Hsig by (eapply lookup_lt_Some; exact Hq).
        discriminate. }
      rewrite Hno. simpl. split; [ reflexivity | split; [ reflexivity | intros _; exact Hq ] ].
Qed.

(** N callers arriving at a cache that is neither valid nor being
    refreshed: the first starts the refresh, all get its promise. *)
Lemma concurrent_callers_run s0 es s1 outs :
  consistent s0 -> tokenRefreshing s0 = false ->
  forallb (joins (tokenInfo s0)) es = true ->
  (1 <= length (call_times es))%nat ->
  run s0 es = Some (s1, outs) ->
  outs = repeat (Follows (length (promises s0))) (length (call_times es)) /\
  s1 = (if existsb is_signed es then sent (length (promises s0)) (begun s0) else begun s0).
Proof.
  intros Hc Hr Hj Hn H.
  destruct es as [|e es]; [ simpl in Hn; lia | ].
  cbn [forallb] in Hj. apply andb_true_iff in Hj. destruct Hj as [He Hj].
  cbn [run] in H.
  destruct (step s0 e) as [[s' out]|] eqn:Hs; [ | discriminate ].
  destruct (run s' es) as [[s2 outs']|] eqn:Hrun; [ | discriminate ].
  injection H as <- <-.
  pose proof (step_consistent s0 e s' out Hc) as Hc'.
  destruct e as [now|q [sg|m]|q rp|]; simpl in He; try discriminate.
  - specialize (Hc' eq_refl Hs).
    apply negb_true_iff in He. simpl in Hs.
    rewrite (getEndpoint_begins now s0 He Hr) in Hs. injection Hs as <- <-.
    destruct (refreshing_run es (begun s0) s2 outs' (length (promises s0)) Hc' eq_refl eq_refl
                Hj Hrun) as (-> & -> & _).
    split; reflexivity.
  - exfalso. simpl in Hs.
    destruct (promises s0 !! q) as [[[|]|]|] eqn:Hq; try discriminate.
    unfold consistent in Hc. rewrite Hr in Hc.
    destruct (tokenRefreshPromise s0); [ contradiction | ]. exact (Hc _ _ Hq).
Qed.

Lemma begun_promises_sent s :
  promises (sent (length (promises s)) (begun s)) = promises s ++ [Pending Fetching].
Proof.
  simpl. rewrite insert_app_r_alt by lia. rewrite Nat.sub_diag. reflexivity.
Qed.

Lemma pending_snoc (l : list promise) st :
  List.filter pending l = [] -> length (List.filter pending (l ++ [Pending st])) = 1%nat.
Proof. intros H. rewrite List.filter_app, H. reflexivity. Qed.

(** The turn that ends the refresh settles its promise, resets both
    flags and, when the refresh failed, leaves [tokenInfo] as it was. *)
Lemma ending_step s1 e s2 o res p :
  consistent s1 -> tokenRefreshing s1 = true -> tokenRefreshPromise s1 = Some p ->
  step s1 e = Some (s2, o) -> ends_with e = Some res ->
  (p < length (promises s1))%nat /\
  exists ti, s2 = finish p res ti s1 /\ (forall m, res = Rejected m -> ti = tokenInfo s1).
Proof.
  intros Hc Hr Hp Hs He.
  unfold consistent in Hc. rewrite Hr, Hp in Hc. destruct Hc as [[st Hst] Hu].
  split; [ eapply lookup_lt_Some; exact Hst | ].
  destruct e as [now|q [sg|m]|q rp|]; simpl in He; try discriminate;
    injection He as <-; simpl in Hs;
    destruct (promises s1 !! q) as [[[|]|]|] eqn:Hq; try discriminate;
    injection Hs as <- <-; pose proof (Hu _ _ Hq) as ->.
  - exists (tokenInfo s1). split; [ reflexivity | auto ].
  - exists (installed rp (tokenInfo s1)). split; [ reflexivity | ].
    intros m Hm. destruct rp; simpl in *; try reflexivity. discriminate.
Qed.

End Singleflight.

Section Callers.
Import Auth.

Lemma joins_not_clear ti es :
  forallb (joins ti) es = true -> forallb (fun e => negb (is_clear e)) es = true.
Proof.
  induction es as [|e es IH]; [ reflexivity | ]. cbn [forallb].
  rewrite !andb_true_iff. intros [He Hes]. split; [ | apply IH; exact Hes ].
  destruct e; simpl in *; congruence.
Qed.

Lemma joins_call_invalid ti es now :
  forallb (joins ti) es = true -> In now (call_times es) -> token_valid now ti = false.
Proof.
  induction es as [|e es IH]; [ intros _ [] | ]. cbn [forallb].
  rewrite andb_true_iff. intros [He Hes] Hin.
  destruct e as [now0| | |]; simpl in Hin; try (apply IH; assumption).
  destruct Hin as [<-|Hin]; [ | apply IH; assumption ].
  simpl in He. apply negb_true_iff. exact He.
Qed.

Lemma run_app es1 : forall es2 s s' outs,
  run s (es1 ++ es2) = Some (s', outs) ->
  exists s1 o1, run s es1 = Some (s1, o1).
Proof.
  induction es1 as [|e es1 IH]; intros es2 s s' outs H; simpl in *; [ eauto | ].
  destruct (step s e) as [[sa out]|]; [ | discriminate ].
  destruct (run sa (es1 ++ es2)) as [[sb outs']|] eqn:Hr; [ | discriminate ].
  destruct (IH _ _ _ _ Hr) as (s1 & o1 & ->). eauto.
Qed.

Lemma concurrent_callers_state s0 es :
  consistent s0 -> tokenRefreshing s0 = false ->
  let s1 := if existsb is_signed es then sent (length (promises s0)) (begun s0) else begun s0 in
  tokenInfo s1 = tokenInfo s0 /\ tokenRefreshing s1 = true /\
  tokenRefreshPromise s1 = Some (length (promises s0)) /\
  length (promises s1) = S (length (promises s0)) /\
  in_flight s1 = 1%nat /\
  requests s1 = (requests s0 + (if existsb is_signed es then 1 else 0))%nat.
Proof.
  intros Hc Hr. pose proof (quiescent_in_flight s0 Hc Hr) as H0. unfold in_flight in *.
  apply length_zero_iff_nil in H0.
  destruct (existsb is_signed es); cbv zeta.
  - rewrite begun_promises_sent. repeat split.
    + rewrite length_app. simpl. lia.
    + apply pending_snoc. exact H0.
    + simpl. lia.
  - repeat split.
    + simpl. rewrite length_app. simpl. lia.
    + simpl. apply pending_snoc. exact H0.
    + simpl. lia.
Qed.

(** C1 (amended): callers arriving at a cache whose token does not pass
    the validity check, with no refresh in flight and
    [clearTokenCache] not used.  Whatever their number (one or more)
    and however their calls interleave with the progress of the
    refresh: exactly one refresh is started; every caller is handed the
    promise of that refresh, and receives its result when it ends; the
    refresh sends at most one request to the token-issuance endpoint,
    exactly one once its signature has arrived, and ending sends none;
    and no state on the way has two refreshes in flight. *)
Theorem getEndpoint_singleflight (s0 s1 : State) (es : list event) (outs : list returned) :
  reachable s0 ->
  tokenRefreshing s0 = false ->
  forallb (joins (tokenInfo s0)) es = true ->
  (1 <= length (call_times es))%nat ->
  run s0 es = Some (s1, outs) ->
  let p := length (promises s0) in
  (length (promises s1) = S (length (promises s0)) /\
   in_flight s0 = 0%nat /\ in_flight s1 = 1%nat) /\
  outs = repeat (Follows p) (length (call_times es)) /\
  requests s1 = (requests s0 + (if existsb is_signed es then 1 else 0))%nat /\
  (forall e s2 o res,
     step s1 e = Some (s2, o) -> ends_with e = Some res ->
     Forall (fun ret => awaited s2 ret = Some (seen res)) outs /\
     in_flight s2 = 0%nat /\
     length (promises s2) = length (promises s1) /\
     requests s2 = requests s1 /\
     tokenRefreshing s2 = false /\ tokenRefreshPromise s2 = None) /\
  (forall es1 es2 s' o',
     es = es1 ++ es2 -> run s0 es1 = Some (s', o') -> (in_flight s' <= 1)%nat).
Proof.
  intros Hreach Hr Hj Hn Hrun p.
  pose proof (reachable_consistent s0 Hreach) as Hc.
  destruct (concurrent_callers_run s0 es s1 outs Hc Hr Hj Hn Hrun) as [Houts Hs1].
  destruct (concurrent_callers_state s0 es Hc Hr) as (Hti & Hr1 & Hp1 & Hlen & Hfl & Hreq).
  rewrite <- Hs1 in *.
  pose proof (run_consistent es s0 s1 outs Hc (joins_not_clear _ _ Hj) Hrun) as Hc1.
  split; [ repeat split; [ exact Hlen | apply quiescent_in_flight; assumption | exact Hfl ] | ].
  split; [ exact Houts | ]. split; [ exact Hreq | ]. split.
  - intros e s2 o res Hstep Hend.
    destruct (ending_step s1 e s2 o res p Hc1 Hr1 Hp1 Hstep Hend) as (Hlt & ti & -> & _).
    assert (Hc2 : consistent (finish p res ti s1)).
    { apply finish_consistent; [ exact Hc1 | ].
      unfold consistent in Hc1. rewrite Hr1, Hp1 in Hc1. apply Hc1. }
    split; [ | split; [ apply quiescent_in_flight; [ exact Hc2 | reflexivity ] | ] ].
    + rewrite Houts. apply List.Forall_forall. intros ret Hin.
      apply repeat_spec in Hin. subst ret. simpl.
      rewrite list_lookup_insert_eq by exact Hlt. destruct res; reflexivity.
    + simpl. rewrite length_insert. repeat split.
  - intros es1 es2 s' o' -> Hrun1.
    apply consistent_in_flight. eapply run_consistent; [ exact Hc | | exact Hrun1 ].
    apply joins_not_clear in Hj. rewrite forallb_app in Hj.
    apply andb_true_iff in Hj. apply Hj.
Qed.

(** C7: callers arriving as above, and the refresh they share fails (at
    signing, at the request, or at decoding the token).  The cache is
    back to "no credential": both flags are reset, nothing is in flight,
    [tokenInfo] is what it was before the refresh, and at any time from
    the callers' on the cache is neither valid nor refreshing, so the
    next call starts anew.  Every caller receives the same rejection,
    with the same message.  The failure starts no refresh and sends no
    request: nobody retries. *)
Theorem failed_refresh_leaves_no_credential
    (s0 s1 s2 : State) (es : list event) (outs o : list returned) (e : event) (m : string) :
  reachable s0 ->
  tokenRefreshing s0 = false ->
  forallb (joins (tokenInfo s0)) es = true ->
  (1 <= length (call_times es))%nat ->
  run s0 es = Some (s1, outs) ->
  step s1 e = Some (s2, o) ->
  ends_with e = Some (Rejected m) ->
  (tokenRefreshing s2 = false /\ tokenRefreshPromise s2 = None /\
   in_flight s2 = 0%nat /\ tokenInfo s2 = tokenInfo s0) /\
  (forall now now', In now (call_times es) -> now <= now' ->
     state_at now' s2 = NoCredential /\
     getEndpoint now' s2 = (begun s2, Follows (length (promises s2)))) /\
  (length outs = length (call_times es) /\
   Forall (fun ret => awaited s2 ret = Some (Rejected m)) outs) /\
  (length (promises s2) = S (length (promises s0)) /\ requests s2 = requests s1).
Proof.
  intros Hreach Hr Hj Hn Hrun Hstep Hend.
  pose proof (reachable_consistent s0 Hreach) as Hc.
  destruct (concurrent_callers_run s0 es s1 outs Hc Hr Hj Hn Hrun) as [Houts Hs1].
  destruct (concurrent_callers_state s0 es Hc Hr) as (Hti & Hr1 & Hp1 & Hlen & Hfl & Hreq).
  rewrite <- Hs1 in *.
  pose proof (run_consistent es s0 s1 outs Hc (joins_not_clear _ _ Hj) Hrun) as Hc1.
  destruct (ending_step s1 e s2 o (Rejected m) _ Hc1 Hr1 Hp1 Hstep Hend)
    as (Hlt & ti & -> & Hsame).
  rewrite (Hsame m eq_refl) in *.
  assert (Hc2 : consistent (finish (length (promises s0)) (Rejected m) (tokenInfo s1) s1)).
  { apply finish_consistent; [ exact Hc1 | ].
    unfold consistent in Hc1. rewrite Hr1, Hp1 in Hc1. apply Hc1. }
  split; [ | split; [ | split ] ].
  - repeat split; [ apply quiescent_in_flight; [ exact Hc2 | reflexivity ] | exact Hti ].
  - intros now now' Hin Hle.
    assert (Hv : token_valid now' (tokenInfo s1) = false).
    { rewrite Hti. eapply token_valid_later; [ | exact Hle ].
      eapply joins_call_invalid; [ exact Hj | exact Hin ]. }
    split.
    + unfold state_at. simpl. rewrite Hv. reflexivity.
    + apply getEndpoint_begins; [ exact Hv | reflexivity ].
  - split; [ rewrite Houts; apply repeat_length | ].
    rewrite Houts. apply List.Forall_forall. intros ret Hin.
    apply repeat_spec in Hin. subst ret. simpl.
    rewrite list_lookup_insert_eq by exact Hlt. reflexivity.
  - simpl. rewrite length_insert. split; [ exact Hlen | reflexivity ].
Qed.

End Callers.

Section CallersExamples.
Import Auth Examples.

Lemma initial_reachable : reachable initial.
Proof. exists [], []. split; reflexivity. Qed.

Lemma stale_reachable : reachable stale.
Proof. exists earlier, [Follows 0]. split; reflexivity. Qed.

Lemma getEndpoint_singleflight_witness :
  reachable initial /\
  tokenRefreshing initial = false /\
  forallb (joins (tokenInfo initial)) three_callers = true /\
  (1 <= length (call_times three_callers))%nat /\
  exists s1,
    run initial three_callers = Some (s1, [Follows 0; Follows 0; Follows 0]) /\
    length (promises s1) = 1%nat /\ in_flight s1 = 1%nat /\ requests s1 = 1%nat.
Proof.
  split; [ exact initial_reachable | ]. split; [ reflexivity | ].
  split; [ reflexivity | ]. split; [ simpl; lia | ].
  eexists. split; [ reflexivity | ].
  destruct (getEndpoint_singleflight initial _ three_callers _ initial_reachable
              eq_refl eq_refl ltac:(simpl; lia) eq_refl)
    as ((Hlen & _ & Hfl) & _ & Hreq & _).
  split; [ exact Hlen | ]. split; [ exact Hfl | exact Hreq ].
Defined.

(** C1, at the input where it fails: three callers arrive at the empty
    cache and signing the request fails (the [crypto.subtle] guard of
    [hmacSha256]).  The one refresh they share has ended, and no request
    at all was sent to the token-issuance endpoint, where C1 states
    exactly one. *)
Lemma signing_failure_sends_no_request :
  exists s1 s2,
    run initial three_calls = Some (s1, [Follows 0; Follows 0; Follows 0]) /\
    step s1 (SignSettled 0 (Rejected "crypto.subtle API 不可用，EdgeOne Pages 环境可能不支持此功能"))
      = Some (s2, []) /\
    awaited s2 (Follows 0) =
      Some (Rejected "端点获取失败: crypto.subtle API 不可用，EdgeOne Pages 环境可能不支持此功能") /\
    in_flight s2 = 0%nat /\ length (promises s2) = 1%nat /\
    requests s2 = 0%nat /\ requests s2 <> 1%nat.
Proof. eexists. eexists. repeat split. discriminate. Qed.

Lemma failed_refresh_leaves_no_credential_witness :
  reachable stale /\
  tokenRefreshing stale = false /\
  forallb (joins (tokenInfo stale)) [Call today; Call today] = true /\
  (1 <= length (call_times [Call today; Call today]))%nat /\
  exists s1 s2,
    run stale [Call today; Call today] = Some (s1, [Follows 1; Follows 1]) /\
    step s1 (SignSettled 1 (Rejected "HMAC 签名失败")) = Some (s2, []) /\
    state_at today s2 = NoCredential /\
    tokenInfo s2 = tokenInfo stale /\
    awaited s2 (Follows 1) = Some (Rejected "端点获取失败: HMAC 签名失败").
Proof.
  split; [ exact stale_reachable | ]. split; [ reflexivity | ].
  split; [ reflexivity | ]. split; [ simpl; lia | ].
  eexists. eexists. split; [ reflexivity | ]. split; [ reflexivity | ].
  destruct (failed_refresh_leaves_no_credential stale _ _ [Call today; Call today] _ _
              (SignSettled 1 (Rejected "HMAC 签名失败"))
              "端点获取失败: HMAC 签名失败"
              stale_reachable eq_refl eq_refl ltac:(simpl; lia) eq_refl eq_refl eq_refl)
    as ((_ & _ & _ & Hti) & Hnc & (_ & Hall) & _).
  split; [ exact (proj1 (Hnc today today (or_introl eq_refl) ltac:(lia))) | ].
  split; [ exact Hti | ].
  inversion Hall as [|? ? Hfirst _]. exact Hfirst.
Defined.

End CallersExamples.

(** With a requested concurrency of zero the batch is empty and the
    index never moves: on a non-empty chunk list the loop of [getVoice]
    does not end, whatever the fuel. *)
Lemma getVoice_loop_zero_concurrency env args chunks fuel :
  (1 <= length chunks)%nat ->
  forall acc started, Tts.getVoice_loop env args fuel chunks 0 0 acc started = None.
Proof.
  intros Hn. induction fuel as [|fuel IH]; intros acc started; cbn [Tts.getVoice_loop];
    destruct (Z.ltb_spec 0 (Z.of_nat (length chunks))); try lia; [ reflexivity | ].
  assert (E : Tts.audioPromises env args chunks 0 0 = []).
  { unfold Tts.audioPromises, slice, relative. simpl.
    rewrite !Z.min_l by lia. reflexivity. }
  rewrite E. simpl. apply IH.
Qed.

(* ================================================================== *)
(** * Further facts *)
(* ================================================================== *)

Section ChunkLengths.

Lemma flush_fits maxChunkLength cs ps :
  Forall (fun u => Z.of_nat (length u) <= maxChunkLength) cs ->
  Z.of_nat (length (concat ps)) <= maxChunkLength ->
  Forall (fun u => Z.of_nat (length u) <= maxChunkLength) (flush cs ps).
Proof.
  intros Hcs Hps. unfold flush. destruct (_ <? _)%nat; [ | exact Hcs ].
  apply Forall_app. split; [ exact Hcs | ]. constructor; [ | constructor ].
  pose proof (trim_length (concat ps)). lia.
Qed.

Lemma loop_fits maxChunkLength pieces :
  Forall (fun p => Z.of_nat (length p) <= maxChunkLength) pieces ->
  forall a,
    Forall (fun u => Z.of_nat (length u) <= maxChunkLength) (chunks a) ->
    currentLength a = Z.of_nat (length (concat (parts a))) ->
    currentLength a <= maxChunkLength ->
    let a' := fold_left (loop_body maxChunkLength) pieces a in
    Forall (fun u => Z.of_nat (length u) <= maxChunkLength) (flush (chunks a') (parts a')).
Proof.
  induction 1 as [|p ps Hp _ IH]; intros a Hcs Hlen Hle; simpl.
  - apply flush_fits; [ exact Hcs | lia ].
  - apply IH; unfold loop_body; destruct (Z.leb_spec (currentLength a + Z.of_nat (length p))
                                            maxChunkLength); simpl.
    + exact Hcs.
    + apply flush_fits; [ exact Hcs | lia ].
    + rewrite concat_app, length_app. simpl. rewrite app_nil_r. lia.
    + rewrite app_nil_r. reflexivity.
    + lia.
    + exact Hp.
Qed.

(** What does hold of the lengths: when no piece of the split (a run
    between delimiters, or a run of delimiters) is longer than
    [maxChunkLength], no unit is. *)
Lemma smartChunkText_fits_when_pieces_fit (text : jsstring) (maxChunkLength : Z) :
  0 <= maxChunkLength ->
  Forall (fun p => Z.of_nat (length p) <= maxChunkLength) (split text) ->
  exists units,
    smartChunkText text maxChunkLength = Some units /\
    Forall (fun u => Z.of_nat (length u) <= maxChunkLength) units.
Proof.
  intros Hmax Hpieces. destruct text as [|c rest].
  - exists []. split; [ reflexivity | constructor ].
  - rewrite smartChunkText_boundary by discriminate. eexists. split; [ reflexivity | ].
    assert (H : Forall (fun u => Z.of_nat (length u) <= maxChunkLength)
                  (boundary_pass (c :: rest) maxChunkLength)).
    { apply (loop_fits maxChunkLength _ Hpieces (Acc [] [] 0)); simpl;
        [ constructor | reflexivity | exact Hmax ]. }
    rewrite List.Forall_forall in *. intros u Hu. apply List.filter_In in Hu. apply H, Hu.
Qed.

(** The specification's scenario: one unit, the text itself. *)
Lemma hello_world_is_one_unit :
  smartChunkText (lit "Hello. World!") 300 = Some [lit "Hello. World!"].
Proof. reflexivity. Qed.

End ChunkLengths.

Section Invalidation.
Import Auth Examples.

(** [clearTokenCache] during a refresh resets the flags without
    cancelling it, so the next caller starts a second refresh beside the
    first: the race the specification records as accepted, and the
    reason the statements above are about schedules without it. *)
Lemma clear_during_refresh_allows_overlap :
  exists s, run initial [Call today; Clear; Call today] = Some (s, [Follows 0; Follows 1]) /\
            in_flight s = 2%nat.
Proof. eexists. split; reflexivity. Qed.

End Invalidation.

Section BatchCalls.
Import Auth.

Lemma joining_calls nows :
  forall s p,
    tokenRefreshing s = true -> tokenRefreshPromise s = Some p ->
    Forall (fun now => token_valid now (tokenInfo s) = false) nows ->
    run s (map Call nows) = Some (s, repeat (Follows p) (length nows)).
Proof.
  induction nows as [|now nows IH]; intros s p Hr Hp Hall; [ reflexivity | ].
  inversion Hall as [|? ? Hnow Hrest]; subst.
  cbn [map run step]. rewrite (getEndpoint_joins now s p Hnow Hr Hp).
  rewrite (IH s p Hr Hp Hrest). reflexivity.
Qed.

(** The calls of one batch: [batch.map] runs every [getAudioChunk] up to
    its [await getEndpoint()] within one turn, so the calls reach the
    cache back to back.  On a cache that is neither valid nor being
    refreshed the first starts the refresh and all wait on its
    promise; nothing has been sent yet. *)
Lemma batch_of_calls_shares_one_refresh s0 now nows :
  tokenRefreshing s0 = false ->
  Forall (fun now => token_valid now (tokenInfo s0) = false) (now :: nows) ->
  run s0 (map Call (now :: nows)) =
    Some (begun s0, repeat (Follows (length (promises s0))) (S (length nows))).
Proof.
  intros Hr Hall. inversion Hall as [|? ? Hnow Hrest]; subst.
  cbn [map run step]. rewrite (getEndpoint_begins now s0 Hnow Hr).
  rewrite (joining_calls nows (begun s0) (length (promises s0)) eq_refl eq_refl Hrest).
  reflexivity.
Qed.

End BatchCalls.

(* ================================================================== *)
(** * More on the chunker *)
(* ================================================================== *)

Section ChunkerFacts.

Lemma smartChunkText_filter (text : jsstring) (maxChunkLength : Z) :
  smartChunkText text maxChunkLength =
    Some (List.filter nonempty (boundary_pass text maxChunkLength)).
Proof.
  destruct text as [|c rest]; [ | apply smartChunkText_boundary; discriminate ].
  unfold boundary_pass. simpl. unfold loop_body. simpl.
  destruct (_ <=? maxChunkLength); reflexivity.
Qed.

(** The forced fixed-width split is dead code: whatever the text and
    [maxChunkLength] (zero and negative values included, for which its
    loop would not end), the boundary-aware pass has pushed a unit, and
    [smartChunkText] returns that pass without its empty units. *)
Theorem smartChunkText_never_forced (text : jsstring) (maxChunkLength : Z) :
  boundary_pass text maxChunkLength <> [] /\
  smartChunkText text maxChunkLength =
    Some (List.filter nonempty (boundary_pass text maxChunkLength)).
Proof.
  split; [ apply boundary_pass_nonempty | apply smartChunkText_filter ].
Qed.

Lemma trimStart_head s c : head (trimStart s) = Some c -> is_whitespace c = false.
Proof.
  induction s as [|x s IH]; simpl; [ discriminate | ].
  destruct (is_whitespace x) eqn:Hx; [ exact IH | ].
  simpl. intros [= <-]. exact Hx.
Qed.

Lemma head_app_nonempty {A} (l r : list A) c : head l = Some c -> head (l ++ r) = Some c.
Proof. destruct l; [ discriminate | auto ]. Qed.

Lemma last_rev_head {A} (l : list A) : last (rev l) = head l.
Proof. destruct l as [|x l]; [ reflexivity | ]. simpl. apply last_snoc. Qed.

(** [trim] leaves no whitespace at either end. *)
Lemma trim_ends s c :
  (head (trim s) = Some c -> is_whitespace c = false) /\
  (last (trim s) = Some c -> is_whitespace c = false).
Proof.
  unfold trim. split.
  - intros H. destruct (trimEnd_split (trimStart s)) as (r & _ & E).
    apply (trimStart_head s c). rewrite E. apply head_app_nonempty. exact H.
  - unfold trimEnd. rewrite last_rev_head. apply trimStart_head.
Qed.

Lemma flush_trimmed cs ps :
  Forall (fun u => exists s, u = trim s) cs ->
  Forall (fun u => exists s, u = trim s) (flush cs ps).
Proof.
  intros H. unfold flush. destruct (_ <? _)%nat; [ | exact H ].
  apply Forall_app. split; [ exact H | ]. constructor; [ eauto | constructor ].
Qed.

Lemma loop_trimmed maxChunkLength pieces :
  forall a,
    Forall (fun u => exists s, u = trim s) (chunks a) ->
    Forall (fun u => exists s, u = trim s)
           (chunks (fold_left (loop_body maxChunkLength) pieces a)).
Proof.
  induction pieces as [|p ps IH]; intros a H; simpl; [ exact H | ].
  apply IH. unfold loop_body. destruct (_ <=? _); simpl; [ exact H | ].
  apply flush_trimmed. exact H.
Qed.

(** No unit begins or ends with whitespace, and none is empty: every
    unit handed to the synthesis starts and ends with a visible
    character. *)
Theorem smartChunkText_units_trimmed (text : jsstring) (maxChunkLength : Z) :
  exists units,
    smartChunkText text maxChunkLength = Some units /\
    Forall (fun u => exists first last_,
                       head u = Some first /\ is_whitespace first = false /\
                       last u = Some last_ /\ is_whitespace last_ = false) units.
Proof.
  rewrite (smartChunkText_filter text maxChunkLength).
  eexists. split; [ reflexivity | ].
  assert (H : Forall (fun u => exists s, u = trim s) (boundary_pass text maxChunkLength)).
  { unfold boundary_pass. apply flush_trimmed. apply loop_trimmed. constructor. }
  rewrite List.Forall_forall in *. intros u Hu. apply List.filter_In in Hu.
  destruct Hu as [Hin Hne]. destruct (H u Hin) as [s ->].
  destruct (trim s) as [|c0 rest0] eqn:Et; [ discriminate | ].
  assert (Hl : exists l, last (c0 :: rest0) = Some l).
  { destruct (last (c0 :: rest0)) eqn:El; [ eauto | ].
    apply last_None in El. discriminate. }
  destruct Hl as [l Hl]. exists c0, l.
  pose proof (trim_ends s c0) as [Hh _]. pose proof (trim_ends s l) as [_ Ht].
  rewrite Et in *. repeat split; auto.
Qed.

Lemma loop_all_fit maxChunkLength pieces :
  forall a,
    currentLength a + Z.of_nat (length (concat pieces)) <= maxChunkLength ->
    fold_left (loop_body maxChunkLength) pieces a =
      Acc (chunks a) (parts a ++ pieces)
          (currentLength a + Z.of_nat (length (concat pieces))).
Proof.
  induction pieces as [|p ps IH]; intros a H; simpl.
  - destruct a; simpl. rewrite app_nil_r, Z.add_0_r. reflexivity.
  - simpl in H. rewrite length_app in H. unfold loop_body at 2.
    destruct (Z.leb_spec (currentLength a + Z.of_nat (length p)) maxChunkLength); [ | lia ].
    rewrite IH by (simpl; lia). simpl.
    rewrite <- app_assoc, length_app. simpl. f_equal. lia.
Qed.

(** A text no longer than [maxChunkLength] is never cut: the result is
    the trimmed text as a single unit, or no unit when the text is
    blank. *)
Theorem smartChunkText_short_text (text : jsstring) (maxChunkLength : Z) :
  Z.of_nat (length text) <= maxChunkLength ->
  smartChunkText text maxChunkLength =
    Some (if nonempty (trim text) then [trim text] else []).
Proof.
  intros Hlen. rewrite (smartChunkText_filter text maxChunkLength).
  unfold boundary_pass.
  rewrite loop_all_fit by (simpl; rewrite split_concat; lia).
  simpl. unfold flush.
  pose proof (split_go_nonempty text [] false) as Hne. fold (split text) in Hne.
  destruct (split text) as [|p ps] eqn:Es; [ congruence | ].
  rewrite <- Es, split_concat. rewrite Es. simpl. reflexivity.
Qed.

Lemma smartChunkText_short_text_witness :
  Z.of_nat (length (lit " Hello. World! ")) <= 300 /\
  smartChunkText (lit " Hello. World! ") 300 = Some [lit "Hello. World!"].
Proof.
  split; [ simpl; lia | ].
  exact (smartChunkText_short_text (lit " Hello. World! ") 300 ltac:(simpl; lia)).
Defined.

Lemma smartChunkText_fits_when_pieces_fit_witness :
  0 <= 8 /\
  Forall (fun p => Z.of_nat (length p) <= 8) (split (lit "One, two. Three!")) /\
  exists units,
    smartChunkText (lit "One, two. Three!") 8 = Some units /\
    Forall (fun u => Z.of_nat (length u) <= 8) units.
Proof.
  assert (H : Forall (fun p => Z.of_nat (length p) <= 8) (split (lit "One, two. Three!"))).
  { repeat constructor; simpl; lia. }
  split; [ lia | ]. split; [ exact H | ].
  exact (smartChunkText_fits_when_pieces_fit (lit "One, two. Three!") 8 ltac:(lia) H).
Defined.

End ChunkerFacts.

(* ================================================================== *)
(** * More on the two response modes *)
(* ================================================================== *)

Section Modes.
Import Tts.
Variable env : Env.
Variable args : ttsArgs.

(** [streamVoice] awaits the whole pipe before it answers, so it behaves
    as [getVoice] does: either both answer 200 with the same audio (the
    stream's writes, joined, are the buffered body), or both answer the
    500 error carrying the same unit error.  What was written to the
    stream before a failure is never delivered. *)
Theorem streamVoice_agrees_with_getVoice (chunks : list jsstring) (concurrency : Z) :
  1 <= concurrency ->
  (exists blobs started,
     getVoice env args chunks concurrency =
       Some ({| status := 200; contentType := "audio/mpeg";
                payload := Audio (concat blobs) |}, started) /\
     streamVoice env args chunks concurrency =
       Some {| status := 200; contentType := "audio/mpeg"; payload := Readable blobs |} /\
     pipeChunksToStream env args chunks concurrency =
       Some {| outcome := Fulfilled tt; writer := map Write blobs ++ [Close];
               batches := started |})
  \/
  (exists m started done,
     getVoice env args chunks concurrency =
       Some (errorResponse ("非流式 TTS 失败: " ++ m)%string 500 "tts_generation_error",
             started) /\
     streamVoice env args chunks concurrency =
       Some (errorResponse ("流式 TTS 失败: 流式处理失败: " ++ m)%string 500
               "tts_generation_error") /\
     pipeChunksToStream env args chunks concurrency =
       Some {| outcome := Rejected ("流式处理失败: " ++ m)%string;
               writer := map Write done ++ [Abort m; Close];
               batches := started |}).
Proof.
  intros Hc.
  destruct (Nat.eq_dec (length chunks) 0%nat) as [Hz|Hz].
  { destruct chunks; [ | discriminate ]. left. exists [], []. repeat split. }
  assert (Hn : (1 <= length chunks)%nat) by lia.
  pose proof (optimalConcurrency_pos concurrency (length chunks) Hc Hn) as Hpos.
  set (size := Z.to_nat (optimalConcurrency concurrency (length chunks))).
  assert (Hsize : (1 <= size)%nat) by (subst size; lia).
  assert (Hoc : optimalConcurrency concurrency (length chunks) = Z.of_nat size)
    by (subst size; lia).
  pose proof (pipe_loop_follows_getVoice_loop env args chunks size Hsize
                (length chunks) 0%nat [] [] ltac:(lia)) as Hpipe.
  unfold getVoice, streamVoice, pipeChunksToStream. rewrite Hoc. change 0 with (Z.of_nat 0).
  destruct (getVoice_loop env args (length chunks) chunks (Z.of_nat size) (Z.of_nat 0) [] [])
    as [[[all|m] started]|]; [ | | contradiction ].
  - left. exists all, started. simpl in Hpipe. rewrite Hpipe. simpl.
    rewrite written_writes. simpl. rewrite app_nil_r. repeat split.
  - right. destruct Hpipe as [done Hpipe]. exists m, started, done.
    simpl in Hpipe. rewrite Hpipe. simpl. rewrite <- app_assoc. repeat split.
Qed.

End Modes.

Lemma streamVoice_agrees_with_getVoice_witness :
  1 <= 3 /\
  exists started,
    Tts.getVoice (Examples.refuses 4) Examples.args Examples.seven 3 =
      Some (Tts.errorResponse
              "非流式 TTS 失败: Edge TTS API 错误: 429 Too Many Requests - slow down"
              500 "tts_generation_error", started) /\
    Tts.streamVoice (Examples.refuses 4) Examples.args Examples.seven 3 =
      Some (Tts.errorResponse
              "流式 TTS 失败: 流式处理失败: Edge TTS API 错误: 429 Too Many Requests - slow down"
              500 "tts_generation_error").
Proof.
  split; [ lia | ].
  destruct (streamVoice_agrees_with_getVoice (Examples.refuses 4) Examples.args
              Examples.seven 3 ltac:(lia))
    as [(blobs & started & _ & _ & H)|(m & started & done & _ & _ & H)].
  - exfalso. vm_compute in H. discriminate.
  - eexists. split; reflexivity.
Defined.


Section BatchCount.
Import Tts.




End BatchCount.

(* ================================================================== *)
(** * More on the token cache *)
(* ================================================================== *)

Section CacheFacts.
Import Auth.

Lemma token_valid_installed now data exp :
  t data <> ""%string -> exp <> 0 ->
  token_valid now {| endpoint := Some data; token := Some (t data); expiredAt := Some exp |}
  = (now <? 1000 * (exp - 300)).
Proof.
  intros Ht He. unfold token_valid, truthy_string, truthy_number. simpl.
  apply String.eqb_neq in Ht. apply Z.eqb_neq in He. rewrite Ht, He. reflexivity.
Qed.

Lemma fetch_step s q rp s2 o :
  step s (FetchSettled q rp) = Some (s2, o) ->
  promises s !! q = Some (Pending Fetching) /\ s2 = resume_fetch q rp s /\ o = [].
Proof.
  simpl. destruct (promises s !! q) as [[[|]|]|]; try discriminate.
  intros [= <- <-]. auto.
Qed.

(** A granted token is installed and then served: the waiters of the
    refresh get the endpoint, every call made more than five minutes
    (300 s) before the expiry returns it from the cache, changing
    nothing and sending nothing, and the first call from then on starts
    a new refresh. *)
Theorem granted_token_is_served_until_skew
    (s s2 : State) (q : nat) (data : Endpoint) (exp : Z) (o : list returned) :
  step s (FetchSettled q (Granted data (Some exp))) = Some (s2, o) ->
  t data <> ""%string -> exp <> 0 ->
  awaited s2 (Follows q) = Some (Fulfilled (Some data)) /\
  (forall now, now < 1000 * (exp - 300) ->
     getEndpoint now s2 = (s2, Value (Some data))) /\
  (forall now, 1000 * (exp - 300) <= now ->
     getEndpoint now s2 = (begun s2, Follows (length (promises s2)))) /\
  requests s2 = requests s.
Proof.
  intros Hstep Ht He. apply fetch_step in Hstep. destruct Hstep as (Hq & -> & _).
  pose proof (lookup_lt_Some _ _ _ Hq) as Hlt.
  split; [ | split; [ | split ] ].
  - simpl. rewrite list_lookup_insert_eq by exact Hlt. reflexivity.
  - intros now Hnow. unfold getEndpoint. simpl.
    rewrite token_valid_installed by assumption.
    destruct (Z.ltb_spec now (1000 * (exp - 300))); [ reflexivity | lia ].
  - intros now Hnow. unfold getEndpoint. simpl.
    rewrite token_valid_installed by assumption.
    destruct (Z.ltb_spec now (1000 * (exp - 300))); [ lia | reflexivity ].
  - reflexivity.
Qed.

(** A granted token whose decoded payload has no [exp] (or [exp] zero)
    reaches the waiters but is never served again: whatever the time,
    the next call starts a new refresh. *)
Theorem token_without_expiry_is_never_cached
    (s s2 : State) (q : nat) (data : Endpoint) (exp : option Z) (o : list returned) :
  step s (FetchSettled q (Granted data exp)) = Some (s2, o) ->
  exp = None \/ exp = Some 0 ->
  awaited s2 (Follows q) = Some (Fulfilled (Some data)) /\
  tokenInfo s2 = {| endpoint := Some data; token := Some (t data); expiredAt := exp |} /\
  forall now, getEndpoint now s2 = (begun s2, Follows (length (promises s2))).
Proof.
  intros Hstep Hexp. apply fetch_step in Hstep. destruct Hstep as (Hq & -> & _).
  pose proof (lookup_lt_Some _ _ _ Hq) as Hlt.
  split; [ | split ].
  - simpl. rewrite list_lookup_insert_eq by exact Hlt. reflexivity.
  - reflexivity.
  - intros now. unfold getEndpoint, token_valid. simpl.
    destruct Hexp as [->| ->]; simpl; rewrite ?andb_false_r; reflexivity.
Qed.

Lemma pending_at_least_one (l : list promise) :
  forall p st, l !! p = Some (Pending st) -> (1 <= length (List.filter pending l))%nat.
Proof.
  induction l as [|x l IH]; intros p st H; [ destruct p; discriminate | ].
  destruct p as [|p]; simpl in H.
  - injection H as ->. simpl. lia.
  - simpl. specialize (IH p st H). destruct (pending x); simpl; lia.
Qed.

(** The invariant of the cache, for every schedule of calls and refresh
    progress without [clearTokenCache]: at most one refresh is pending,
    the two refresh variables are set together, and they are set exactly
    while a refresh is pending, whose promise is the stored one. *)
Theorem cache_invariant (s : State) :
  reachable s ->
  (in_flight s <= 1)%nat /\
  (tokenRefreshing s = true <-> in_flight s = 1%nat) /\
  (tokenRefreshing s = true <-> is_Some (tokenRefreshPromise s)) /\
  (forall p, tokenRefreshPromise s = Some p -> exists st, promises s !! p = Some (Pending st)).
Proof.
  intros Hreach. pose proof (reachable_consistent s Hreach) as Hc.
  pose proof (consistent_in_flight s Hc) as Hle.
  split; [ exact Hle | ].
  unfold consistent in Hc.
  destruct (tokenRefreshing s) eqn:Hr, (tokenRefreshPromise s) as [p0|] eqn:Hp;
    try contradiction.
  - destruct Hc as [[st Hst] Hu].
    pose proof (pending_at_least_one _ _ _ Hst) as Hge. unfold in_flight in *.
    split; [ split; intros; [ lia | reflexivity ] | ].
    split; [ split; intros; [ eauto | reflexivity ] | ].
    intros p [= <-]. eauto.
  - assert (H0 : in_flight s = 0%nat).
    { unfold in_flight. rewrite no_pending_filter by exact Hc. reflexivity. }
    split; [ split; intros; [ discriminate | lia ] | ].
    split; [ split; [ discriminate | intros [? ?]; discriminate ] | ].
    intros p [=].
Qed.

Lemma cache_invariant_witness :
  reachable Examples.stale /\ (in_flight Examples.stale <= 1)%nat.
Proof.
  split; [ exact stale_reachable | ].
  exact (proj1 (cache_invariant Examples.stale stale_reachable)).
Defined.

End CacheFacts.

Section CacheFactsExamples.
Import Auth Examples.

Lemma granted_token_is_served_until_skew_witness :
  (exists s2, step fetching (FetchSettled 0 (Granted here (Some 2000000000))) = Some (s2, [])) /\
  t here <> ""%string /\ 2000000000 <> 0 /\
  exists s2,
    step fetching (FetchSettled 0 (Granted here (Some 2000000000))) = Some (s2, []) /\
    getEndpoint today s2 = (s2, Value (Some here)).
Proof.
  split; [ eexists; reflexivity | ]. split; [ discriminate | ]. split; [ lia | ].
  eexists. split; [ reflexivity | ].
  refine (proj1 (proj2 (granted_token_is_served_until_skew fetching _ 0 here 2000000000 []
                          eq_refl _ _)) today _); [ discriminate | lia | unfold today; lia ].
Defined.

Lemma token_without_expiry_is_never_cached_witness :
  (exists s2, step fetching (FetchSettled 0 (Granted here None)) = Some (s2, [])) /\
  exists s2,
    step fetching (FetchSettled 0 (Granted here None)) = Some (s2, []) /\
    getEndpoint today s2 = (begun s2, Follows 1).
Proof.
  split; [ eexists; reflexivity | ].
  eexists. split; [ reflexivity | ].
  exact (proj2 (proj2 (token_without_expiry_is_never_cached fetching _ 0 here None []
                         eq_refl (or_introl eq_refl))) today).
Defined.

End CacheFactsExamples.

Section Requests_.
Import Auth.

Lemma filter_length_insert {A} (f : A -> bool) (l : list A) :
  forall p x y,
    l !! p = Some x ->
    (length (List.filter f (<[p := y]> l)) + (if f x then 1 else 0) =
     length (List.filter f l) + (if f y then 1 else 0))%nat.
Proof.
  induction l as [|z l IH]; intros p x y H; [ destruct p; discriminate | ].
  destruct p as [|p]; simpl in *.
  - injection H as ->. destruct (f x), (f y); simpl; lia.
  - specialize (IH p x y H). destruct (f z); simpl; lia.
Qed.

Lemma step_requests s e s' out :
  step s e = Some (s', out) ->
  (requests s + length (List.filter (fun pr => match pr with Pending Signing => true | _ => false end)
                                    (promises s)) <= length (promises s))%nat ->
  (requests s' + length (List.filter (fun pr => match pr with Pending Signing => true | _ => false end)
                                     (promises s')) <= length (promises s'))%nat.
Proof.
  intros H Hinv. destruct e as [now|p sg|p rp|]; simpl in H.
  - unfold getEndpoint in H. destruct (token_valid now (tokenInfo s)).
    { injection H as <- _. exact Hinv. }
    destruct (tokenRefreshing s), (tokenRefreshPromise s); injection H as <- _;
      try exact Hinv; simpl; rewrite List.filter_app, !length_app; simpl; lia.
  - destruct (promises s !! p) as [[[|]|]|] eqn:Hp; try discriminate.
    injection H as <- _.
    destruct sg as [sig|m]; simpl; rewrite length_insert.
    + pose proof (filter_length_insert
                    (fun pr => match pr with Pending Signing => true | _ => false end)
                    _ _ _ (Pending Fetching) Hp) as E. simpl in E. lia.
    + pose proof (filter_length_insert
                    (fun pr => match pr with Pending Signing => true | _ => false end)
                    _ _ _ (Settled (refresh_failed m)) Hp) as E. simpl in E. lia.
  - destruct (promises s !! p) as [[[|]|]|] eqn:Hp; try discriminate.
    injection H as <- _. simpl. rewrite length_insert.
    pose proof (filter_length_insert
                  (fun pr => match pr with Pending Signing => true | _ => false end)
                  _ _ _ (Settled (settlement rp)) Hp) as E. simpl in E. lia.
  - injection H as <- _. exact Hinv.
Qed.

Lemma run_requests es :
  forall s s' outs,
    run s es = Some (s', outs) ->
    (requests s + length (List.filter (fun pr => match pr with Pending Signing => true | _ => false end)
                                      (promises s)) <= length (promises s))%nat ->
    (requests s' <= length (promises s'))%nat.
Proof.
  induction es as [|e es IH]; intros s s' outs H Hinv; simpl in H.
  - injection H as <- _. lia.
  - destruct (step s e) as [[s1 out]|] eqn:Hs; [ | discriminate ].
    destruct (run s1 es) as [[s2 outs']|] eqn:Hr; [ | discriminate ].
    injection H as <- _. eapply IH; [ exact Hr | ].
    eapply step_requests; [ exact Hs | exact Hinv ].
Qed.

(** Over any history of the cache, [clearTokenCache] included, the
    requests sent to the token-issuance endpoint never outnumber the
    refreshes started: a refresh sends one request at most and nothing
    else sends any. *)
Theorem at_most_one_request_per_refresh (es : list event) (s : State) (outs : list returned) :
  run initial es = Some (s, outs) ->
  (requests s <= length (promises s))%nat.
Proof. intros H. eapply run_requests; [ exact H | simpl; lia ]. Qed.

Lemma at_most_one_request_per_refresh_witness :
  (exists s outs, run initial Examples.history
                  = Some (s, outs)) /\
  exists s outs,
    run initial Examples.history = Some (s, outs) /\
    (requests s <= length (promises s))%nat.
Proof.
  split; [ eexists; eexists; reflexivity | ].
  eexists. eexists. split; [ reflexivity | ].
  exact (at_most_one_request_per_refresh Examples.history _ _ eq_refl).
Defined.

End Requests_.

Section InvalidationFacts.
Import Auth.

Lemma refreshing_in_flight s :
  consistent s -> tokenRefreshing s = true -> in_flight s = 1%nat.
Proof.
  intros Hc Hr. pose proof (consistent_in_flight s Hc) as Hle.
  unfold consistent in Hc. rewrite Hr in Hc.
  destruct (tokenRefreshPromise s); [ | contradiction ].
  destruct Hc as [[st Hst] _].
  pose proof (pending_at_least_one _ _ _ Hst). unfold in_flight in *. lia.
Qed.

(** [clearTokenCache] while a refresh is in flight does not cancel it
    and hides it: the cache is empty, and the very next call, whatever
    the time, starts a second refresh that runs beside the first. *)
Theorem clear_during_refresh_starts_second_refresh (s : State) (now : Z) :
  reachable s ->
  tokenRefreshing s = true ->
  exists s',
    run s [Clear; Call now] = Some (s', [Follows (length (promises s))]) /\
    tokenInfo s' = empty_tokenInfo /\
    tokenRefreshPromise s' = Some (length (promises s)) /\
    in_flight s' = 2%nat.
Proof.
  intros Hreach Hr.
  pose proof (refreshing_in_flight s (reachable_consistent s Hreach) Hr) as H1.
  eexists. split; [ reflexivity | ]. repeat split.
  unfold in_flight in *. simpl. rewrite List.filter_app, length_app, H1. reflexivity.
Qed.

(** The result of a refresh that was in flight when [clearTokenCache]
    ran is still installed when it lands: the cleared cache holds the
    granted token again and serves it to later callers. *)
Theorem refresh_result_survives_clear (s : State) (p : nat) (data : Endpoint) (exp : option Z) :
  promises s !! p = Some (Pending Fetching) ->
  exists s',
    run s [Clear; FetchSettled p (Granted data exp)] = Some (s', []) /\
    tokenInfo s' = {| endpoint := Some data; token := Some (t data); expiredAt := exp |} /\
    awaited s' (Follows p) = Some (Fulfilled (Some data)) /\
    (forall e now, exp = Some e -> t data <> ""%string -> e <> 0 ->
                   now < 1000 * (e - 300) ->
                   getEndpoint now s' = (s', Value (Some data))).
Proof.
  intros Hp. pose proof (lookup_lt_Some _ _ _ Hp) as Hlt.
  eexists. split; [ cbn [run step clearTokenCache promises]; rewrite Hp; reflexivity | ].
  split; [ reflexivity | ]. split.
  - simpl. rewrite list_lookup_insert_eq by exact Hlt. reflexivity.
  - intros e now -> Ht He Hnow. unfold getEndpoint. simpl.
    rewrite token_valid_installed by assumption.
    destruct (Z.ltb_spec now (1000 * (e - 300))); [ reflexivity | lia ].
Qed.

End InvalidationFacts.

Section InvalidationExamples.
Import Auth Examples.

Lemma fetching_reachable : reachable fetching.
Proof.
  exists [Call today; SignSettled 0 (Fulfilled "signature"%string)], [Follows 0].
  split; reflexivity.
Qed.

Lemma clear_during_refresh_starts_second_refresh_witness :
  reachable fetching /\ tokenRefreshing fetching = true /\
  exists s', run fetching [Clear; Call today] = Some (s', [Follows 1]) /\ in_flight s' = 2%nat.
Proof.
  split; [ exact fetching_reachable | ]. split; [ reflexivity | ].
  destruct (clear_during_refresh_starts_second_refresh fetching today fetching_reachable eq_refl)
    as (s' & Hrun & _ & _ & Hfl).
  exists s'. split; [ exact Hrun | exact Hfl ].
Defined.

Lemma refresh_result_survives_clear_witness :
  promises fetching !! 0%nat = Some (Pending Fetching) /\
  exists s',
    run fetching [Clear; FetchSettled 0 (Granted here (Some 2000000000))] = Some (s', []) /\
    getEndpoint today s' = (s', Value (Some here)).
Proof.
  split; [ reflexivity | ].
  destruct (refresh_result_survives_clear fetching 0 here (Some 2000000000) eq_refl)
    as (s' & Hrun & _ & _ & Hserve).
  exists s'. split; [ exact Hrun | ].
  apply (Hserve 2000000000 today eq_refl); [ discriminate | lia | unfold today; lia ].
Defined.

End InvalidationExamples.

(* ================================================================== *)
(** * The API key *)
(* ================================================================== *)

Section ApiKey.
Import Http Access.

(** The literals are read as intended. *)
Lemma js_literals :
  js "Bearer " = [66; 101; 97; 114; 101; 114; 32]%N /\
  js "无效的 API 密钥" = [26080; 25928; 30340; 32; 65; 80; 73; 32; 23494; 38053]%N /\
  js "处理错误: " = [22788; 29702; 38169; 35823; 58; 32]%N /\
  show (js "语音 voice") = "语音 voice"%string /\
  show [0xD83D; 0xDE00; 0xD83D]%N = (show (js "😀") ++ show [0xFFFD%N])%string.
Proof. repeat split. Qed.

Lemma eqb_eq (a b : jsstring) : eqb a b = true <-> a = b.
Proof.
  revert b. induction a as [|x a IH]; intros [|y b]; simpl; try (split; congruence).
  rewrite andb_true_iff, N.eqb_eq, IH. split; [ intros [-> ->]; reflexivity | ].
  intros [= -> ->]. auto.
Qed.

Lemma eqb_refl (a : jsstring) : eqb a a = true.
Proof. apply eqb_eq. reflexivity. Qed.

Lemma eqb_neq (a b : jsstring) : eqb a b = false <-> a <> b.
Proof.
  rewrite <- eqb_eq. destruct (eqb a b); split; congruence.
Qed.

Lemma startsWith_spec (prefix s : jsstring) :
  startsWith s prefix = true <-> s = prefix ++ skipn (length prefix) s.
Proof.
  revert s. induction prefix as [|p prefix IH]; intros s.
  - destruct s; split; reflexivity.
  - destruct s as [|c s]; simpl; [ split; discriminate | ].
    rewrite andb_true_iff, N.eqb_eq, IH. simpl. split.
    + intros [-> E]. f_equal. exact E.
    + intros [= -> E]. auto.
Qed.

Lemma startsWith_app (prefix rest : jsstring) :
  startsWith (prefix ++ rest) prefix = true /\ skipn (length prefix) (prefix ++ rest) = rest.
Proof.
  assert (E : skipn (length prefix) (prefix ++ rest) = rest).
  { induction prefix; simpl; auto. }
  split; [ apply startsWith_spec; rewrite E; reflexivity | exact E ].
Qed.

(** The bearer token of a header, when it has one. *)
Lemma bearer_header (authHeader : jsstring) :
  startsWith authHeader (js "Bearer ") = true <->
  authHeader = js "Bearer " ++ skipn 7 authHeader.
Proof. apply (startsWith_spec (js "Bearer ")). Qed.

Lemma not_bearer (authHeader : jsstring) :
  startsWith authHeader (js "Bearer ") = false ->
  forall r, authHeader <> js "Bearer " ++ r.
Proof.
  intros Hs r E. rewrite E in Hs.
  destruct (startsWith_app (js "Bearer ") r) as [T _]. rewrite T in Hs. discriminate.
Qed.

Lemma providedKey_bearer (request : Request) (r : jsstring) :
  authorization request = Some (js "Bearer " ++ r) -> providedKey request = Some r.
Proof.
  intros H. unfold providedKey. rewrite H.
  destruct (startsWith_app (js "Bearer ") r) as [-> _]. reflexivity.
Qed.

Lemma providedKey_query (request : Request) :
  (forall r, authorization request <> Some (js "Bearer " ++ r)) ->
  providedKey request =
    or_else (get (searchParams request) (js "key")) (get (searchParams request) (js "api_key")).
Proof.
  intros H. unfold providedKey. destruct (authorization request) as [h|]; [ | reflexivity ].
  destruct (startsWith h (js "Bearer ")) eqn:Hs; [ | rewrite andb_false_r; reflexivity ].
  exfalso. apply bearer_header in Hs. apply (H (skipn 7 h)). f_equal. exact Hs.
Qed.

Lemma validateApiKey_granted (request : Request) (key : jsstring) :
  key <> [] ->
  granted (validateApiKey request (Some key)) = true <-> providedKey request = Some key.
Proof.
  intros Hk. unfold validateApiKey.
  destruct key as [|k0 key]; [ congruence | ]. simpl.
  destruct (providedKey request) as [[|c provided]|]; simpl.
  - split; discriminate.
  - change (N.eqb c k0 && eqb provided key) with (eqb (c :: provided) (k0 :: key)).
    rewrite eqb_eq. split; congruence.
  - split; discriminate.
Qed.

(** With a key configured, [validateApiKey] admits a request exactly
    when it presents that key: as the bearer token of the
    [Authorization] header, or, when the header is missing or not a
    bearer header, as the [key] query parameter, or as [api_key] when
    [key] is absent or empty. *)
Theorem validateApiKey_grants_iff (request : Request) (key : jsstring) :
  key <> [] ->
  granted (validateApiKey request (Some key)) = true <->
  authorization request = Some (js "Bearer " ++ key) \/
  ((forall r, authorization request <> Some (js "Bearer " ++ r)) /\
   (get (searchParams request) (js "key") = Some key \/
    (truthy (get (searchParams request) (js "key")) = false /\
     get (searchParams request) (js "api_key") = Some key))).
Proof.
  intros Hk. rewrite (validateApiKey_granted request key Hk). split.
  - intros Hp. destruct (authorization request) as [h|] eqn:Hh.
    + destruct (startsWith h (js "Bearer ")) eqn:Hs.
      * left. apply bearer_header in Hs. rewrite Hs in Hh.
        rewrite (providedKey_bearer request _ Hh) in Hp. injection Hp as Hp.
        f_equal. rewrite <- Hp. exact Hs.
      * right. assert (Hno : forall r, Some h <> Some (js "Bearer " ++ r)).
        { intros r E. apply (not_bearer h Hs r). congruence. }
        split; [ exact Hno | ].
        rewrite <- Hh in Hno. rewrite (providedKey_query request Hno) in Hp.
        unfold or_else in Hp. destruct (truthy (get (searchParams request) (js "key"))); auto.
    + right. assert (Hno : forall r, @None jsstring <> Some (js "Bearer " ++ r)) by discriminate.
      split; [ exact Hno | ].
      rewrite <- Hh in Hno. rewrite (providedKey_query request Hno) in Hp.
      unfold or_else in Hp. destruct (truthy (get (searchParams request) (js "key"))); auto.
  - intros [Hb|[Hno [Hq|[Hf Hq]]]].
    + apply providedKey_bearer. exact Hb.
    + rewrite (providedKey_query request Hno). unfold or_else. rewrite Hq.
      destruct key; [ congruence | reflexivity ].
    + rewrite (providedKey_query request Hno). unfold or_else. rewrite Hf. exact Hq.
Qed.

(** The header wins over the URL: a bearer header with another token is
    refused even when the URL carries the right key. *)
Theorem bearer_header_overrides_query (request : Request) (key r : jsstring) :
  key <> [] ->
  authorization request = Some (js "Bearer " ++ r) ->
  r <> key ->
  granted (validateApiKey request (Some key)) = false.
Proof.
  intros Hk Hh Hne.
  destruct (granted (validateApiKey request (Some key))) eqn:Hg; [ | reflexivity ].
  apply (validateApiKey_granted request key Hk) in Hg.
  rewrite (providedKey_bearer request r Hh) in Hg. congruence.
Qed.

Lemma models_authorized_iff (request : Request) (key : jsstring) :
  key <> [] ->
  Models.authorized request (Some key) = true <->
  authorization request = Some (js "Bearer " ++ key).
Proof.
  intros Hk. unfold Models.authorized.
  destruct key as [|k0 key]; [ congruence | ]. cbn [truthy].
  destruct (authorization request) as [h|]; [ | split; discriminate ].
  rewrite negb_true_iff, !orb_false_iff, !negb_false_iff, eqb_eq, bearer_header. split.
  - intros [[_ Hs] E]. f_equal. rewrite <- E. exact Hs.
  - intros E. assert (Eh : h = js "Bearer " ++ k0 :: key) by congruence.
    destruct (startsWith_app (js "Bearer ") (k0 :: key)) as [Hs Ek].
    change (length (js "Bearer ")) with 7%nat in Ek.
    rewrite Eh, Ek. split; [ split; [ reflexivity | reflexivity ] | reflexivity ].
Qed.

(** The models endpoint answers a preflight before looking at the key;
    otherwise, with a key configured, it refuses with 401 every request
    whose [Authorization] header is not exactly ["Bearer " + key] (a key
    in the URL is not looked at), and lists the eight models for the
    others, which [validateApiKey] admits as well. *)
Theorem models_access (Date_now : nat -> Z) (request : Request) (key : jsstring) :
  key <> [] ->
  (method request = js "OPTIONS" ->
     Models.onRequest Date_now request (Some key)
       = Models.Preflight (accessControlRequestHeaders request)) /\
  (method request <> js "OPTIONS" ->
     authorization request <> Some (js "Bearer " ++ key) ->
     Models.onRequest Date_now request (Some key)
       = Models.Refused 401 (js "无效的 API 密钥") (js "invalid_api_key")) /\
  (method request <> js "OPTIONS" ->
     authorization request = Some (js "Bearer " ++ key) ->
     granted (validateApiKey request (Some key)) = true /\
     exists data,
       Models.onRequest Date_now request (Some key) = Models.ModelList data /\
       map Models.id data =
         map js ["tts-1"; "tts-1-hd"; "tts-1-alloy"; "tts-1-echo"; "tts-1-fable";
                 "tts-1-onyx"; "tts-1-nova"; "tts-1-shimmer"]%string).
Proof.
  intros Hk. unfold Models.onRequest. split; [ | split ].
  - intros ->. reflexivity.
  - intros Hm Hh. apply eqb_neq in Hm. rewrite Hm.
    destruct (Models.authorized request (Some key)) eqn:Ha; [ | reflexivity ].
    apply (models_authorized_iff request key Hk) in Ha. contradiction.
  - intros Hm Hh. split.
    + apply (validateApiKey_granted request key Hk). apply providedKey_bearer. exact Hh.
    + apply eqb_neq in Hm. rewrite Hm.
      apply (models_authorized_iff request key Hk) in Hh. rewrite Hh.
      eexists. split; reflexivity.
Qed.

End ApiKey.

Lemma validateApiKey_grants_iff_witness :
  Examples.key <> [] /\
  Access.granted (Access.validateApiKey Examples.by_query (Some Examples.key)) = true /\
  Access.granted (Access.validateApiKey Examples.by_header (Some Examples.key)) = true /\
  Access.granted (Access.validateApiKey Examples.no_voice (Some Examples.key)) = false.
Proof.
  split; [ discriminate | ]. split; [ | split ].
  - apply (proj2 (validateApiKey_grants_iff Examples.by_query Examples.key ltac:(discriminate))).
    right. split; [ intros r; discriminate | ]. right. split; reflexivity.
  - apply (proj2 (validateApiKey_grants_iff Examples.by_header Examples.key
                    ltac:(discriminate))).
    left. reflexivity.
  - destruct (Access.granted (Access.validateApiKey Examples.no_voice (Some Examples.key)))
      eqn:E; [ | reflexivity ].
    apply (proj1 (validateApiKey_grants_iff Examples.no_voice Examples.key
                    ltac:(discriminate))) in E.
    destruct E as [E|[_ [E|[_ E]]]]; discriminate.
Defined.

Lemma bearer_header_overrides_query_witness :
  Examples.key <> [] /\
  Http.authorization Examples.wrong_header = Some (Http.js "Bearer " ++ Http.js "guess") /\
  Http.js "guess" <> Examples.key /\
  Http.get (Http.searchParams Examples.wrong_header) (Http.js "key") = Some Examples.key /\
  Access.granted (Access.validateApiKey Examples.wrong_header (Some Examples.key)) = false.
Proof.
  split; [ discriminate | ]. split; [ reflexivity | ]. split; [ discriminate | ].
  split; [ reflexivity | ].
  apply (bearer_header_overrides_query Examples.wrong_header Examples.key (Http.js "guess"));
    [ discriminate | reflexivity | discriminate ].
Defined.

Lemma models_access_witness :
  Examples.key <> [] /\
  Models.onRequest (fun _ => Examples.today) Examples.by_query (Some Examples.key)
    = Models.Refused 401 (Http.js "无效的 API 密钥") (Http.js "invalid_api_key").
Proof.
  split; [ discriminate | ].
  apply (proj1 (proj2 (models_access (fun _ => Examples.today) Examples.by_query Examples.key
                         ltac:(discriminate)))); discriminate.
Defined.

(* ================================================================== *)
(** * cleanText *)
(* ================================================================== *)

Section CleanText.
Import Cleaning.

Lemma lookup_middle {A} (l u r : list A) (j : nat) (x : A) :
  u !! j = Some x -> (l ++ u ++ r) !! (length l + j)%nat = Some x.
Proof.
  intros Hj. rewrite lookup_app_r by lia.
  replace (length l + j - length l)%nat with j by lia.
  apply lookup_app_l_Some. exact Hj.
Qed.

Lemma collapse_go_spec (s : jsstring) :
  forall in_run,
    (in_run = true ->
     forall d, head (collapse_go in_run s) = Some d -> is_whitespace d = false) /\
    (forall i c, collapse_go in_run s !! i = Some c -> is_whitespace c = true ->
       c = 32%N /\
       forall d, collapse_go in_run s !! S i = Some d -> is_whitespace d = false).
Proof.
  induction s as [|x s IH]; intros in_run; cbn [collapse_go].
  - split; [ intros _ d; discriminate | intros i c Hc; destruct i; discriminate ].
  - destruct (is_whitespace x) eqn:Hx.
    + destruct in_run.
      * apply (IH true).
      * split; [ discriminate | ]. intros [|i] c Hc Hw.
        -- injection Hc as <-. split; [ reflexivity | ].
           intros d Hd. apply (proj1 (IH true) eq_refl).
           rewrite head_lookup. exact Hd.
        -- apply (proj2 (IH true) i c Hc Hw).
    + split.
      * intros _ d [= <-]. exact Hx.
      * intros [|i] c Hc Hw.
        -- injection Hc as <-. congruence.
        -- apply (proj2 (IH false) i c Hc Hw).
Qed.

(** With [remove_line_breaks] on (the default), every whitespace
    character of the cleaned text is one space (U+0020) standing between
    two characters that are not whitespace: no line break, tab or double
    space is left, and the text neither starts nor ends with a space,
    whatever the other stages do. *)
Theorem cleanText_single_spaced (e : Engine) (text : jsstring) (o : options) :
  remove_line_breaks o = true ->
  forall i c,
    cleanText e text o !! i = Some c -> is_whitespace c = true ->
    c = 32%N /\
    exists a b,
      (0 < i)%nat /\
      cleanText e text o !! (i - 1)%nat = Some a /\ is_whitespace a = false /\
      cleanText e text o !! S i = Some b /\ is_whitespace b = false.
Proof.
  intros Hon. unfold cleanText. rewrite Hon. cbv zeta.
  match goal with |- context [trim (collapse ?t)] => generalize t end.
  intros t i c Hc Hw.
  destruct (trim_split (collapse t)) as (l & r & _ & _ & Ht).
  pose proof (proj2 (collapse_go_spec t false)) as Hspec. fold (collapse t) in Hspec.
  set (u := trim (collapse t)) in *.
  assert (Hat : forall j x, u !! j = Some x -> collapse t !! (length l + j)%nat = Some x).
  { intros j x Hj. rewrite Ht. apply lookup_middle. exact Hj. }
  destruct (Hspec _ _ (Hat _ _ Hc) Hw) as [-> Hnext]. split; [ reflexivity | ].
  pose proof (trim_ends (collapse t)) as Hends. fold u in Hends.
  assert (Hi : (0 < i)%nat).
  { destruct i; [ | lia ]. exfalso.
    assert (Hh : head u = Some 32%N) by (rewrite head_lookup; exact Hc).
    apply (proj1 (Hends 32%N)) in Hh. discriminate. }
  pose proof (lookup_lt_Some _ _ _ Hc) as Hlt.
  destruct (lookup_lt_is_Some_2 u (i - 1)%nat ltac:(lia)) as [a Ha].
  assert (Hlast : (S i < length u)%nat).
  { destruct (Nat.eq_dec (S i) (length u)) as [E|E]; [ exfalso | lia ].
    assert (Hl : last u = Some 32%N).
    { rewrite last_lookup. replace (pred (length u)) with i by lia. exact Hc. }
    apply (proj2 (Hends 32%N)) in Hl. discriminate. }
  destruct (lookup_lt_is_Some_2 u (S i) Hlast) as [b Hb].
  exists a, b. split; [ exact Hi | ]. split; [ exact Ha | ]. split.
  - destruct (is_whitespace a) eqn:Hwa; [ exfalso | reflexivity ].
    destruct (Hspec _ _ (Hat _ _ Ha) Hwa) as [_ Hn].
    specialize (Hn 32%N). replace (S (length l + (i - 1)))%nat with (length l + i)%nat in Hn by lia.
    specialize (Hn (Hat _ _ Hc)). discriminate.
  - split; [ exact Hb | ]. apply Hnext.
    replace (S (length l + i))%nat with (length l + S i)%nat by lia.
    apply Hat. exact Hb.
Qed.

End CleanText.

Lemma cleanText_single_spaced_witness :
  Cleaning.remove_line_breaks Examples.defaults = true /\
  Cleaning.cleanText (Speech.engine Examples.plain) Examples.untidy Examples.defaults
    = lit "a b" /\
  exists a b,
    Cleaning.cleanText (Speech.engine Examples.plain) Examples.untidy Examples.defaults
      !! 0%nat = Some a /\ is_whitespace a = false /\
    Cleaning.cleanText (Speech.engine Examples.plain) Examples.untidy Examples.defaults
      !! 2%nat = Some b /\ is_whitespace b = false.
Proof.
  split; [ reflexivity | ]. split; [ reflexivity | ].
  destruct (cleanText_single_spaced (Speech.engine Examples.plain) Examples.untidy
              Examples.defaults eq_refl 1%nat 32%N eq_refl eq_refl)
    as (_ & a & b & _ & Ha & Hwa & Hb & Hwb).
  exists a, b. split; [ exact Ha | ]. split; [ exact Hwa | ]. split; [ exact Hb | exact Hwb ].
Defined.

(* ================================================================== *)
(** * The speech endpoint *)
(* ================================================================== *)

Section RequestLoops.
Import Tts.
Variable env : Env.
Variable args : ttsArgs.

Lemma pipe_loop_zero_concurrency chunks fuel :
  (1 <= length chunks)%nat ->
  forall ops started, pipe_loop env args fuel chunks 0 0 ops started = None.
Proof.
  intros Hn. induction fuel as [|fuel IH]; intros ops started; cbn [pipe_loop];
    destruct (Z.ltb_spec 0 (Z.of_nat (length chunks))); try lia; [ reflexivity | ].
  assert (E : audioPromises env args chunks 0 0 = []).
  { unfold audioPromises, slice, relative. simpl.
    rewrite !Z.min_l by lia. reflexivity. }
  rewrite E. simpl. apply IH.
Qed.

Lemma optimalConcurrency_zero (n : nat) : optimalConcurrency 0 n = 0.
Proof. unfold optimalConcurrency. lia. Qed.

Lemma getVoice_status chunks concurrency response started :
  getVoice env args chunks concurrency = Some (response, started) ->
  (status response = 200%nat /\ contentType response = "audio/mpeg"%string) \/
  (status response = 500%nat /\ contentType response = "application/json"%string).
Proof.
  unfold getVoice.
  destruct (getVoice_loop _ _ _ _ _ _ _ _) as [[[all|m] st]|]; intros H;
    [ | | discriminate ]; injection H as <- _; [ left | right ]; split; reflexivity.
Qed.

Lemma streamVoice_status chunks concurrency response :
  streamVoice env args chunks concurrency = Some response ->
  (status response = 200%nat /\ contentType response = "audio/mpeg"%string) \/
  (status response = 500%nat /\ contentType response = "application/json"%string).
Proof.
  unfold streamVoice.
  destruct (pipeChunksToStream _ _ _ _) as [piped|]; [ | discriminate ].
  destruct (outcome piped); intros H; injection H as <-; [ left | right ];
    split; reflexivity.
Qed.


Lemma zero_answers chunks :
  (1 <= length chunks)%nat ->
  getVoice env args chunks 0 = None /\ streamVoice env args chunks 0 = None.
Proof.
  intros Hn. unfold getVoice, streamVoice, pipeChunksToStream.
  rewrite optimalConcurrency_zero.
  rewrite (getVoice_loop_zero_concurrency env args chunks (length chunks) Hn).
  rewrite (pipe_loop_zero_concurrency chunks (length chunks) Hn).
  split; reflexivity.
Qed.

(** A requested concurrency of 0 is not rejected: the effective
    concurrency is 0, every batch is empty and the index never moves, so
    on a non-empty chunk list neither loop ends, whatever the fuel, and
    neither mode answers. *)
Theorem zero_concurrency_never_answers (chunks : list jsstring) :
  (1 <= length chunks)%nat ->
  (forall fuel acc started,
     getVoice_loop env args fuel chunks (optimalConcurrency 0 (length chunks)) 0 acc started
       = None) /\
  (forall fuel ops started,
     pipe_loop env args fuel chunks (optimalConcurrency 0 (length chunks)) 0 ops started
       = None) /\
  getVoice env args chunks 0 = None /\
  streamVoice env args chunks 0 = None.
Proof.
  intros Hn. rewrite optimalConcurrency_zero.
  split; [ intros; apply getVoice_loop_zero_concurrency; exact Hn | ].
  split; [ intros; apply pipe_loop_zero_concurrency; exact Hn | ].
  apply zero_answers. exact Hn.
Qed.

End RequestLoops.

Lemma zero_concurrency_never_answers_witness :
  (1 <= length Examples.seven)%nat /\
  Tts.getVoice Examples.all_ok Examples.args Examples.seven 0 = None /\
  Tts.streamVoice Examples.all_ok Examples.args Examples.seven 0 = None.
Proof.
  split; [ simpl; lia | ].
  exact (proj2 (proj2 (zero_concurrency_never_answers Examples.all_ok Examples.args
                         Examples.seven ltac:(simpl; lia)))).
Defined.

Section SpeechEndpoint.
Import Http Access Speech.
Variable p : Platform.
Variable env : Tts.Env.

Lemma onRequest_admitted request json API_KEY :
  method request <> js "OPTIONS" ->
  granted (validateApiKey request API_KEY) = true ->
  onRequest p env request json API_KEY =
    match handleSpeechRequest p env request json with
    | None => None
    | Some (Fulfilled response) => Some (Answered response)
    | Some (Rejected message) =>
        Some (Answered (Tts.errorResponse ("处理错误: " ++ message)%string 500
                          "internal_server_error"))
    end.
Proof.
  intros Hm Hg. unfold onRequest. apply eqb_neq in Hm.
  rewrite Hm, Hg, andb_false_r. reflexivity.
Qed.

Lemma handleSpeechRequest_supported request json :
  method request = js "GET" \/ method request = js "POST" ->
  handleSpeechRequest p env request json =
    match parseRequestParams request json with
    | Rejected message => Some (Rejected message)
    | Fulfilled requestBody =>
        match processRequestParams p requestBody with
        | Rejected message => Some (Rejected message)
        | Fulfilled params =>
            match smartChunkText
                    (Cleaning.cleanText (engine p) (Params.input params)
                       (Params.finalCleaningOptions params))
                    (Params.chunk_size params) with
            | None => None
            | Some textChunks =>
                if Params.stream params then
                  match Tts.streamVoice env (ttsArgs_of params) textChunks
                          (Params.concurrency params) with
                  | Some response => Some (Fulfilled response)
                  | None => None
                  end
                else
                  match Tts.getVoice env (ttsArgs_of params) textChunks
                          (Params.concurrency params) with
                  | Some (response, _) => Some (Fulfilled response)
                  | None => None
                  end
            end
        end
    end.
Proof.
  intros [Hm|Hm]; unfold handleSpeechRequest; rewrite Hm; reflexivity.
Qed.

Lemma handleSpeechRequest_status request json response :
  handleSpeechRequest p env request json = Some (Fulfilled response) ->
  (Tts.status response = 200%nat /\ Tts.contentType response = "audio/mpeg"%string) \/
  ((Tts.status response = 405%nat \/ Tts.status response = 500%nat) /\
   Tts.contentType response = "application/json"%string).
Proof.
  unfold handleSpeechRequest.
  destruct (negb _ && negb _).
  { intros [= <-]. right. split; [ left | ]; reflexivity. }
  destruct (parseRequestParams request json) as [requestBody|]; [ | discriminate ].
  destruct (processRequestParams p requestBody) as [params|]; [ | discriminate ].
  destruct (smartChunkText _ _) as [textChunks|]; [ | discriminate ].
  destruct (Params.stream params).
  - destruct (Tts.streamVoice _ _ _ _) as [r|] eqn:E; [ | discriminate ].
    intros [= <-]. destruct (streamVoice_status _ _ _ _ _ E) as [H|[H1 H2]]; [ left; exact H | ].
    right. split; [ right; exact H1 | exact H2 ].
  - destruct (Tts.getVoice _ _ _ _) as [[r st]|] eqn:E; [ | discriminate ].
    intros [= <-]. destruct (getVoice_status _ _ _ _ _ _ E) as [H|[H1 H2]]; [ left; exact H | ].
    right. split; [ right; exact H1 | exact H2 ].
Qed.

(** The speech endpoint answers with 200 and audio, or with a JSON error
    of status 401, 405 or 500, and nothing else: errors of the request
    itself (a body that is not JSON, a missing input, an unknown voice)
    come back as 500, never as 400. *)
Theorem speech_statuses request json API_KEY response :
  onRequest p env request json API_KEY = Some (Answered response) ->
  (Tts.status response = 200%nat /\ Tts.contentType response = "audio/mpeg"%string) \/
  ((Tts.status response = 401%nat \/ Tts.status response = 405%nat \/
    Tts.status response = 500%nat) /\
   Tts.contentType response = "application/json"%string).
Proof.
  unfold onRequest.
  destruct (eqb (method request) (js "OPTIONS")); [ discriminate | ].
  destruct (truthy API_KEY && negb _).
  { intros [= <-]. right. split; [ left | ]; reflexivity. }
  destruct (handleSpeechRequest p env request json) as [[r|m]|] eqn:E; [ | | discriminate ].
  - intros [= <-]. destruct (handleSpeechRequest_status _ _ _ E) as [H|[[H|H] H2]];
      [ left; exact H | right; split; [ right; left; exact H | exact H2 ]
      | right; split; [ right; right; exact H | exact H2 ] ].
  - intros [= <-]. right. split; [ right; right | ]; reflexivity.
Qed.

(** The checks come in this order: a preflight is answered before the
    key is looked at; then the key, so that a request without it gets
    401 whatever its method and body; then the method, anything but GET
    and POST getting 405 before the body is read.  A request that
    presents the key never gets 401. *)
Theorem speech_checks_in_order request json (key : jsstring) :
  key <> [] ->
  (method request = js "OPTIONS" ->
     onRequest p env request json (Some key)
       = Some (Preflight (accessControlRequestHeaders request))) /\
  (method request <> js "OPTIONS" ->
     granted (validateApiKey request (Some key)) = false ->
     onRequest p env request json (Some key)
       = Some (Answered (Tts.errorResponse "无效的 API 密钥" 401 "invalid_api_key"))) /\
  (method request <> js "OPTIONS" ->
     method request <> js "GET" -> method request <> js "POST" ->
     granted (validateApiKey request (Some key)) = true ->
     onRequest p env request json (Some key)
       = Some (Answered (Tts.errorResponse "不允许的方法" 405 "method_not_allowed"))) /\
  (granted (validateApiKey request (Some key)) = true ->
     forall response,
       onRequest p env request json (Some key) = Some (Answered response) ->
       Tts.status response <> 401%nat).
Proof.
  intros Hk. destruct key as [|k0 key]; [ congruence | ].
  split; [ | split; [ | split ] ].
  - intros Hm. unfold onRequest. rewrite Hm. reflexivity.
  - intros Hm Hg. unfold onRequest. apply eqb_neq in Hm. rewrite Hm, Hg. reflexivity.
  - intros Hm Hget Hpost Hg. rewrite (onRequest_admitted _ _ _ Hm Hg).
    unfold handleSpeechRequest. apply eqb_neq in Hget, Hpost. rewrite Hget, Hpost.
    reflexivity.
  - intros Hg response. unfold onRequest.
    destruct (eqb (method request) (js "OPTIONS")); [ discriminate | ].
    rewrite Hg, andb_false_r.
    destruct (handleSpeechRequest p env request json) as [[r|m]|] eqn:E; [ | | discriminate ].
    + intros [= <-]. destruct (handleSpeechRequest_status _ _ _ E) as [[H _]|[[H|H] _]];
        rewrite H; discriminate.
    + intros [= <-]. discriminate.
Qed.

(** A GET or POST request without input (absent, [null] or empty) is
    answered 500 with the code [internal_server_error], the message
    naming the missing parameter; nothing is cleaned, chunked or
    sent. *)
Theorem missing_input_is_reported_as_500 request json API_KEY (b : Body.t) :
  method request = js "GET" \/ method request = js "POST" ->
  granted (validateApiKey request API_KEY) = true ->
  parseRequestParams request json = Fulfilled (Some b) ->
  Body.input b = Undefined \/ Body.input b = Null \/ Body.input b = Val [] ->
  onRequest p env request json API_KEY
    = Some (Answered (Tts.errorResponse "处理错误: 'input' 是必需参数" 500
                        "internal_server_error")).
Proof.
  intros Hsup Hg Hparse Hin.
  assert (Hm : method request <> js "OPTIONS").
  { destruct Hsup as [E|E]; rewrite E; discriminate. }
  rewrite (onRequest_admitted _ _ _ Hm Hg), (handleSpeechRequest_supported _ _ Hsup), Hparse.
  unfold processRequestParams. destruct Hin as [E|[E|E]]; rewrite E; reflexivity.
Qed.

Lemma own_voice (name : jsstring) (voice : string) :
  In (name, voice) OPENAI_VOICE_MAP ->
  remove_first (js "tts-1-") (js "tts-1-" ++ name) = name /\
  own OPENAI_VOICE_MAP name = Some voice.
Proof.
  unfold OPENAI_VOICE_MAP. cbn [In].
  intros [E|[E|[E|[E|[E|[E|[]]]]]]]; injection E as <- <-; split; reflexivity.
Qed.

(** How the voice is chosen, for a body with an input.  A voice that is
    given is passed on as it is, and so is the default ["shimmer"] of an
    absent one: [OPENAI_VOICE_MAP] is not consulted for them, whatever
    the model.  Only a [null] or empty voice is replaced, by the map's
    entry for the model's name without ["tts-1-"]; with the default
    model ["tts-1"] there is no such entry and the call throws. *)
Theorem voice_resolution (b : Body.t) (c : code_unit) (rest : jsstring) :
  Body.input b = Val (c :: rest) ->
  (forall v, v <> [] -> Body.voice b = Val v ->
     exists params,
       processRequestParams p (Some b) = Fulfilled params /\
       Params.finalVoice params = show v) /\
  (Body.voice b = Undefined ->
     exists params,
       processRequestParams p (Some b) = Fulfilled params /\
       Params.finalVoice params = "shimmer"%string) /\
  (forall name voice,
     Body.voice b = Null \/ Body.voice b = Val [] ->
     In (name, voice) OPENAI_VOICE_MAP ->
     Body.model b = Val (js "tts-1-" ++ name) ->
     exists params,
       processRequestParams p (Some b) = Fulfilled params /\
       Params.finalVoice params = voice) /\
  (Body.voice b = Null ->
     Body.model b = Undefined \/ Body.model b = Val (js "tts-1") ->
     inherited p (js "tts-1") = None ->
     processRequestParams p (Some b)
       = Rejected "无效的语音模型 - model: tts-1, voice: null").
Proof.
  intros Hin. unfold processRequestParams. rewrite Hin.
  split; [ | split; [ | split ] ].
  - intros v Hv ->. destruct v as [|v0 v]; [ congruence | ].
    eexists. split; reflexivity.
  - intros ->. eexists. split; reflexivity.
  - intros name voice Hv Hmap Hmodel.
    destruct (own_voice name voice Hmap) as [Hname Hown].
    assert (E : forall printed,
               from_model p b (c :: rest) printed
                 = Fulfilled (accepted p b (c :: rest) voice)).
    { intros printed. unfold from_model. rewrite Hmodel, Hname.
      unfold lookup. rewrite Hown. reflexivity. }
    destruct Hv as [->| ->]; rewrite E; eexists; split; reflexivity.
  - intros -> Hmodel Hnone. unfold from_model.
    assert (E : lookup p (remove_first (js "tts-1-") (js "tts-1")) = None).
    { unfold lookup. exact Hnone. }
    destruct Hmodel as [->| ->]; rewrite E; reflexivity.
Qed.

(** [GET /v1/audio/speech?input=...] without a voice and without a
    model does not fall back to the default voice: [searchParams.get]
    gives [null], which the default ["shimmer"] does not replace, the
    model ["tts-1"] names no voice, and the answer is 500. *)
Theorem get_without_voice_is_refused request json API_KEY :
  method request = js "GET" ->
  granted (validateApiKey request API_KEY) = true ->
  truthy (or_else (get (searchParams request) (js "input"))
                  (get (searchParams request) (js "t"))) = true ->
  or_else (get (searchParams request) (js "voice")) (get (searchParams request) (js "v"))
    = None ->
  truthy (get (searchParams request) (js "model")) = false ->
  inherited p (js "tts-1") = None ->
  onRequest p env request json API_KEY
    = Some (Answered (Tts.errorResponse
                        "处理错误: 无效的语音模型 - model: tts-1, voice: null" 500
                        "internal_server_error")).
Proof.
  intros Hm Hg Hin Hv Hmodel Hnone.
  assert (Hopt : method request <> js "OPTIONS") by (rewrite Hm; discriminate).
  rewrite (onRequest_admitted _ _ _ Hopt Hg),
    (handleSpeechRequest_supported _ _ (or_introl Hm)).
  unfold parseRequestParams. rewrite Hm. change (eqb (js "GET") (js "GET")) with true.
  cbv iota zeta. rewrite Hv.
  destruct (or_else (get (searchParams request) (js "input"))
                    (get (searchParams request) (js "t"))) as [[|c rest]|];
    try discriminate.
  assert (E : or_literal (get (searchParams request) (js "model")) (js "tts-1") = js "tts-1").
  { unfold or_literal. destruct (get (searchParams request) (js "model")) as [[|m ms]|];
      [ reflexivity | discriminate | reflexivity ]. }
  rewrite E. unfold processRequestParams, from_model. cbn [nullable Body.input Body.voice
    Body.model].
  assert (E' : lookup p (remove_first (js "tts-1-") (js "tts-1")) = None).
  { unfold lookup. exact Hnone. }
  rewrite E'. reflexivity.
Qed.


(** A body whose concurrency is 0 (or [null]) is accepted as it is: when
    its cleaned input gives at least one unit, the handler is caught in
    the loop that does not advance and the request is never answered. *)
Theorem zero_concurrency_is_never_answered request json API_KEY
    (params : Params.t) (unit : jsstring) (units : list jsstring) :
  method request = js "GET" \/ method request = js "POST" ->
  granted (validateApiKey request API_KEY) = true ->
  (exists requestBody,
     parseRequestParams request json = Fulfilled requestBody /\
     processRequestParams p requestBody = Fulfilled params) ->
  Params.concurrency params = 0 ->
  smartChunkText
    (Cleaning.cleanText (engine p) (Params.input params) (Params.finalCleaningOptions params))
    (Params.chunk_size params) = Some (unit :: units) ->
  onRequest p env request json API_KEY = None.
Proof.
  intros Hsup Hg (requestBody & Hparse & Hproc) Hzero Hunits.
  assert (Hm : method request <> js "OPTIONS").
  { destruct Hsup as [E|E]; rewrite E; discriminate. }
  rewrite (onRequest_admitted _ _ _ Hm Hg), (handleSpeechRequest_supported _ _ Hsup),
    Hparse, Hproc, Hunits, Hzero.
  assert (Hn : (1 <= length (unit :: units))%nat) by (simpl; lia).
  destruct (zero_answers env (ttsArgs_of params) (unit :: units) Hn) as [-> ->].
  destruct (Params.stream params); reflexivity.
Qed.

End SpeechEndpoint.

Lemma speech_statuses_witness :
  exists response,
    Speech.onRequest Examples.plain Examples.all_ok Examples.by_query (Speech.Json None)
      (Some Examples.key) = Some (Speech.Answered response) /\
    Tts.status response = 200%nat /\ Tts.contentType response = "audio/mpeg"%string.
Proof.
  destruct (Speech.onRequest Examples.plain Examples.all_ok Examples.by_query
              (Speech.Json None) (Some Examples.key)) as [[|response]|] eqn:E;
    try (vm_compute in E; discriminate).
  exists response. split; [ reflexivity | ].
  destruct (speech_statuses Examples.plain Examples.all_ok Examples.by_query
              (Speech.Json None) (Some Examples.key) response E) as [H|[H _]];
    [ exact H | exfalso ].
  vm_compute in E. injection E as <-. destruct H as [H|[H|H]]; discriminate.
Defined.

Lemma speech_checks_in_order_witness :
  Examples.key <> [] /\
  Speech.onRequest Examples.plain Examples.all_ok Examples.delete
    (Speech.SyntaxError "Unexpected end of JSON input") (Some Examples.key)
    = Some (Speech.Answered (Tts.errorResponse "无效的 API 密钥" 401 "invalid_api_key")).
Proof.
  split; [ discriminate | ].
  apply (proj1 (proj2 (speech_checks_in_order Examples.plain Examples.all_ok Examples.delete
                         (Speech.SyntaxError "Unexpected end of JSON input") Examples.key
                         ltac:(discriminate))));
    [ discriminate | reflexivity ].
Defined.

Lemma missing_input_is_reported_as_500_witness :
  exists b,
    Speech.parseRequestParams Examples.no_input (Speech.Json None) = Fulfilled (Some b) /\
    Speech.Body.input b = Speech.Null /\
    Speech.onRequest Examples.plain Examples.all_ok Examples.no_input (Speech.Json None) None
      = Some (Speech.Answered
                (Tts.errorResponse "处理错误: 'input' 是必需参数" 500 "internal_server_error")).
Proof.
  eexists. split; [ reflexivity | ]. split; [ reflexivity | ].
  apply (missing_input_is_reported_as_500 Examples.plain Examples.all_ok Examples.no_input
           (Speech.Json None) None _ (or_introl eq_refl) eq_refl eq_refl).
  right. left. reflexivity.
Defined.

Lemma voice_resolution_witness :
  (exists params,
     Speech.processRequestParams Examples.plain (Some Examples.alloy) = Fulfilled params /\
     Speech.Params.finalVoice params = "alloy"%string) /\
  (exists params,
     Speech.processRequestParams Examples.plain (Some Examples.nova) = Fulfilled params /\
     Speech.Params.finalVoice params = "zh-CN-YunxiNeural"%string).
Proof.
  split.
  - apply (proj1 (voice_resolution Examples.plain Examples.alloy _ _ eq_refl)
             (Http.js "alloy")); [ discriminate | reflexivity ].
  - apply (proj1 (proj2 (proj2 (voice_resolution Examples.plain Examples.nova _ _ eq_refl)))
             (Http.js "nova") "zh-CN-YunxiNeural"%string);
      [ left; reflexivity | | reflexivity ].
    unfold Speech.OPENAI_VOICE_MAP. do 4 right. left. reflexivity.
Defined.

Lemma get_without_voice_is_refused_witness :
  Speech.onRequest Examples.plain Examples.all_ok Examples.no_voice (Speech.Json None) None
    = Some (Speech.Answered
              (Tts.errorResponse "处理错误: 无效的语音模型 - model: tts-1, voice: null" 500
                 "internal_server_error")).
Proof.
  apply (get_without_voice_is_refused Examples.plain Examples.all_ok Examples.no_voice
           (Speech.Json None) None); reflexivity.
Defined.


Lemma zero_concurrency_is_never_answered_witness :
  Speech.onRequest Examples.plain Examples.all_ok Examples.by_header
    (Speech.Json (Some Examples.zero_concurrency)) (Some Examples.key) = None.
Proof.
  apply (zero_concurrency_is_never_answered Examples.plain Examples.all_ok Examples.by_header
           (Speech.Json (Some Examples.zero_concurrency)) (Some Examples.key)
           (Speech.accepted Examples.plain Examples.zero_concurrency (Http.js "Hi. There.")
              "shimmer")
           (Http.js "Hi. There.") []).
  - right. reflexivity.
  - reflexivity.
  - eexists. split; reflexivity.
  - reflexivity.
  - reflexivity.
Defined.
